(** * webrtcprivate: the signaling transport of go-libp2p

    A shallow embedding of [p2p/transport/webrtcprivate/transport.go]
    (package [libp2pwebrtcprivate]) and the properties of its dial side,
    its address translation and its single-listener registration.

    Layout:
    - [Go]      : results, errors and panics of Go functions;
    - [ma]      : the parts of go-multiaddr the transport calls;
    - [pb], [webrtc] : the signaling message and the endpoint states;
    - the collaborators (host, resource manager, stream, endpoint) as the
      calls made on them, logged in a trace, and their answers, given by
      an environment;
    - the transport itself, function by function, under the names of the
      source;
    - the theorems. *)

From Stdlib Require Import ZArith List String Bool Lia.
Import ListNotations.

Set Implicit Arguments.
Open Scope string_scope.
Open Scope list_scope.

(* ================================================================= *)
(** ** Go values: errors, results, panics *)

Module Go.

(** Go [error] values: the sentinels the transport tests or returns as
    they are, [errors.New]/[fmt.Errorf] without [%w], and [fmt.Errorf]
    with [%w] around a cause. *)
Inductive error : Type :=
| DeadlineExceeded                      (* context.DeadlineExceeded *)
| Canceled                              (* context.Canceled *)
| EOF                                   (* io.EOF *)
| errorString (msg : string)
| wrapError (msg : string) (cause : error).

(** A Go result pair [(T, error)]. *)
Inductive result (A : Type) : Type :=
| OK (a : A)
| Err (e : error).
Arguments OK {A} a.
Arguments Err {A} e.

(** What a call does: return, or panic (nil dereference). *)
Inductive outcome (A : Type) : Type :=
| Ret (a : A)
| Panic.
Arguments Ret {A} a.
Arguments Panic {A}.

Definition obind {A B} (o : outcome A) (k : A -> outcome B) : outcome B :=
  match o with
  | Ret a => k a
  | Panic => Panic
  end.

Definition isErr {A} (r : result A) : bool :=
  match r with OK _ => false | Err _ => true end.

End Go.
Import Go.

(* ================================================================= *)
(** ** go-multiaddr, as far as the transport uses it *)

(** The transport imports the library as [ma].  Its functions are given
    here as the library of the transport's time has them, where
    [Multiaddr] is an interface whose nil value has no methods to call:
    a function that hands back "nothing" hands back nil, and a method
    called on nil panics. *)
Module ma.

Local Open Scope Z_scope.

(** Protocol codes (go-multiaddr, protocols.go). *)
Definition P_IP4 : Z := 4.
Definition P_TCP : Z := 6.
Definition P_UDP : Z := 273.
Definition P_WEBRTC_DIRECT : Z := 280.
Definition P_WEBRTC : Z := 281.
Definition P_CIRCUIT : Z := 290.
Definition P_P2P : Z := 421.

(** One segment of an address: [c.Protocol().Code] and [c.Value()]. *)
Record Component : Type := mkComponent {
  Protocol : Z;
  Value : string
}.

(** A non-nil [ma.Multiaddr] interface value is either a [*Component]
    or a [*multiaddr] (a byte string, here the components it decodes
    to).  The nil interface is [None : option Multiaddr]. *)
Inductive Multiaddr : Type :=
| MaComponent (c : Component)
| MaBytes (cs : list Component).

Definition components (m : Multiaddr) : list Component :=
  match m with
  | MaComponent c => [c]
  | MaBytes cs => cs
  end.

Definition optComponents (m : option Multiaddr) : list Component :=
  match m with
  | Some a => components a
  | None => []
  end.

(** [ma.ForEach]: walks the components, the callback answers whether to
    go on.  The variables the Go closure captures are the state [S]. *)
Fixpoint forEachFrom {S : Type} (cs : list Component)
         (cb : Component -> S -> S * bool) (s : S) : S :=
  match cs with
  | [] => s
  | c :: rest =>
      let (s', more) := cb c s in
      if more then forEachFrom rest cb s' else s'
  end.

Definition ForEach {S : Type} (m : Multiaddr)
           (cb : Component -> S -> S * bool) (s : S) : S :=
  match m with
  | MaComponent c => fst (cb c s)
  | MaBytes cs => forEachFrom cs cb s
  end.

(** Offset (in components) at which [SplitFunc]'s loop breaks. *)
Fixpoint splitOffset (cs : list Component) (cb : Component -> bool) : nat :=
  match cs with
  | [] => O
  | c :: rest => if cb c then O else S (splitOffset rest cb)
  end.

(** [ma.SplitFunc]: splits where the callback first answers true, that
    component opening the second half; an empty half is the nil
    interface.  A [*Component] is not cut: it is the second half when the
    callback holds of it, the first half otherwise. *)
Definition SplitFunc (m : Multiaddr) (cb : Component -> bool)
  : option Multiaddr * option Multiaddr :=
  match m with
  | MaComponent c => if cb c then (None, Some m) else (Some m, None)
  | MaBytes [] => (None, None)
  | MaBytes cs =>
      let offset := splitOffset cs cb in
      if Nat.eqb offset 0 then (None, Some (MaBytes cs))
      else if Nat.eqb offset (List.length cs) then (Some (MaBytes cs), None)
      else (Some (MaBytes (firstn offset cs)), Some (MaBytes (skipn offset cs)))
  end.

(** [ma.SplitFirst]: first component and the rest.  On the nil interface
    the call [m.Bytes()] dereferences nil. *)
Definition SplitFirst (m : option Multiaddr)
  : outcome (option Component * option Multiaddr) :=
  match m with
  | None => Panic
  | Some (MaComponent c) => Ret (Some c, None)
  | Some (MaBytes []) => Ret (None, None)
  | Some (MaBytes [c]) => Ret (Some c, None)
  | Some (MaBytes (c :: rest)) => Ret (Some c, Some (MaBytes rest))
  end.

(** [m.Encapsulate(o)]: the bytes of [m] followed by those of [o]; a
    method call on a nil receiver, or [o.Bytes()] on nil, panics. *)
Definition encapsulate (a b : Multiaddr) : Multiaddr :=
  MaBytes (components a ++ components b).

Definition Encapsulate (m o : option Multiaddr) : outcome Multiaddr :=
  match m, o with
  | Some a, Some b => Ret (encapsulate a b)
  | _, _ => Panic
  end.

(** [m.ValueForProtocol(code)]: the value of the first component with
    that code, [ErrProtocolNotFound] when there is none. *)
Definition ErrProtocolNotFound : error := errorString "protocol not found in multiaddr".

Definition ValueForProtocol (m : Multiaddr) (code : Z) : result string :=
  match find (fun c => Protocol c =? code) (components m) with
  | Some c => OK (Value c)
  | None => Err ErrProtocolNotFound
  end.

(** [ma.StringCast "/webrtc"]: the marker has no value. *)
Definition webrtcComponent : Component := mkComponent P_WEBRTC "".
Definition circuitComponent : Component := mkComponent P_CIRCUIT "".

Definition isCircuit (c : Component) : bool := Protocol c =? P_CIRCUIT.
Definition isWebRTC (c : Component) : bool := Protocol c =? P_WEBRTC.

End ma.

(* ================================================================= *)
(** ** Address translation: CanDial and getRelayAddr *)

Definition WebRTCAddr : ma.Multiaddr := ma.MaBytes [ma.webrtcComponent].

(** The closure of [CanDial]; its captured variables [circuit], [webrtc]
    are the state. *)
Definition canDialStep (c : ma.Component) (st : bool * bool) : (bool * bool) * bool :=
  let (circuit, webrtc) := st in
  if Z.eqb (ma.Protocol c) ma.P_CIRCUIT then ((true, webrtc), true)
  else if circuit then ((circuit, Z.eqb (ma.Protocol c) ma.P_WEBRTC), false)
  else ((circuit, webrtc), true).

(** [getRelayAddr] removes /webrtc from addr and returns a circuit v2 only
    address. *)
Definition getRelayAddr (addr : ma.Multiaddr) : outcome (option ma.Multiaddr) :=
  let (first, rest) := ma.SplitFunc addr ma.isWebRTC in
  obind (ma.SplitFirst rest) (fun '(_, rest) =>
    match rest with
    | None => Ret first
    | Some _ => obind (ma.Encapsulate first rest) (fun m => Ret (Some m))
    end).

(** Components for writing addresses down. *)
Definition ip4 (s : string) := ma.mkComponent ma.P_IP4 s.
Definition tcp (s : string) := ma.mkComponent ma.P_TCP s.
Definition p2p (s : string) := ma.mkComponent ma.P_P2P s.

(* ================================================================= *)
(** ** The signaling message and the endpoint *)

Module pb.

Inductive Message_Type : Type :=
| Message_SDP_OFFER
| Message_SDP_ANSWER
| Message_ICE_CANDIDATE.

(** [pb.Message]: both fields are optional (pointers in Go). *)
Record Message : Type := mkMessage {
  MsgType : option Message_Type;
  Data : option string
}.

Definition Message_Type_eqb (a b : Message_Type) : bool :=
  match a, b with
  | Message_SDP_OFFER, Message_SDP_OFFER
  | Message_SDP_ANSWER, Message_SDP_ANSWER
  | Message_ICE_CANDIDATE, Message_ICE_CANDIDATE => true
  | _, _ => false
  end.

(** [msg.Type == nil || *msg.Type != t] *)
Definition typeIsNot (m : Message) (t : Message_Type) : bool :=
  match MsgType m with
  | None => true
  | Some t' => negb (Message_Type_eqb t' t)
  end.

(** [msg.Data == nil || *msg.Data == ""] *)
Definition dataEmpty (m : Message) : bool :=
  match Data m with
  | None => true
  | Some s => String.eqb s ""
  end.

End pb.

Module webrtc.

Inductive PeerConnectionState : Type :=
| PeerConnectionStateUnknown
| PeerConnectionStateNew
| PeerConnectionStateConnecting
| PeerConnectionStateConnected
| PeerConnectionStateDisconnected
| PeerConnectionStateFailed
| PeerConnectionStateClosed.

Record ICECandidate : Type := { Address : string; Port : Z }.
Record ICECandidatePair : Type := { Local : ICECandidate; Remote : ICECandidate }.

(** The transports behind a PeerConnection, each possibly nil, as
    [getLocalConnectionAddress] walks them. *)
Record ICETransport : Type := {
  GetSelectedCandidatePair : option ICECandidatePair * option error
}.
Record DTLSTransport : Type := { getICETransport : option ICETransport }.
Record SCTPTransport : Type := { Transport : option DTLSTransport }.
Record PeerConnection : Type := { SCTP : option SCTPTransport }.

(** [webrtc.ICECandidateInit], kept as the JSON it was decoded from. *)
Record ICECandidateInit : Type := { Candidate : string }.

End webrtc.
Import webrtc.

(* ================================================================= *)
(** ** Constants of the transport *)

Definition name : string := "webrtcprivate".
Definition maxMsgSize : Z := 4096.
Definition connectTimeout : Z := 60 * 1000000000.   (* time.Minute, in ns *)
Definition SignalingProtocol : string := "/webrtc-signaling".

(* ================================================================= *)
(** ** Collaborators: what the transport calls and what it gets back *)

Record ConnManagementScope : Type := { scopeID : nat }.

Inductive Direction : Type := DirInbound | DirOutbound.

(** The connection [libp2pwebrtc.NewWebRTCConnection] builds from its
    arguments. *)
Record CapableConn : Type := mkConn {
  connDirection : Direction;
  connPC : PeerConnection;
  connScope : ConnManagementScope;
  connLocalPeer : string;
  connLocalAddr : ma.Multiaddr;
  connRemotePeer : string;
  connRemoteAddr : ma.Multiaddr
}.

(** Calls on collaborators, in the order they are made. *)
Inductive event : Type :=
| EvConnect (p : string) (relayAddr : option ma.Multiaddr)
| EvOpenConnection (raddr : ma.Multiaddr)
| EvScopeSetPeer (p : string)
| EvScopeDone
| EvNewStream (p : string) (proto : string)
| EvSetService (svc : string)
| EvReserveMemory (n : Z) (granted : bool)
| EvReleaseMemory (n : Z)
| EvSetDeadline (t : Z)
| EvStreamReset
| EvStreamClose
| EvWriteMsg (m : pb.Message)
| EvReadMsg
| EvNewPeerConnection
| EvPcClose
| EvOnICECandidateOff
| EvCreateDataChannel
| EvDcClose
| EvCreateOffer
| EvSetLocalDescription (sdp : string)
| EvSetRemoteDescription (sdp : string)
| EvAddICECandidate (init : ICECandidateInit)
| EvCancel
| EvNewWebRTCConnection
| EvInterceptSecured
| EvConnClose.

(** One pass of the reader goroutine reads this. *)
Inductive ReadResult : Type :=
| ReadEOF
| ReadFail (e : error)
| ReadMsg (m : pb.Message).

(** A local candidate handed to the [OnICECandidate] callback: what
    [json.Marshal] gives for it and what [w.WriteMsg] answers. *)
Record LocalCandidate : Type := {
  candJSON : result string;
  candWrite : option error
}.

(** What runs beside the main flow of [setupConnection]: the two
    callbacks of the endpoint, the passes of the reader goroutine, and the
    context ending.  A callback that fires before the select is reached
    only fills the same single-slot channels, so the schedule lists the
    events up to the moment the select decides, earliest first.

    The reader tests [ctx.Err()] and then blocks in [r.ReadMsg], and the
    context may end in between.  [ReaderPass r] is a pass whose test is
    made at this point of the schedule, the read answering [r] at once;
    [ReadInFlight r] is the read of a pass that made its test earlier, the
    context still alive then, and that answers [r] only now. *)
Inductive RaceEvent : Type :=
| ConnectionStateChange (s : PeerConnectionState)
| ICECandidateFound (c : option LocalCandidate)
| ReaderPass (r : ReadResult)
| ContextDone (e : error)
| ReadInFlight (r : ReadResult).

(** The answers of the collaborators to one dial. *)
Record Env : Type := {
  envConnect : option error;
  envOpenConnection : result ConnManagementScope;
  envSetPeer : option error;
  envNewStream : option error;
  envSetService : option error;
  envReserveMemory : option error;
  envNow : Z;
  envNewPeerConnection : result PeerConnection;
  envCreateDataChannel : option error;
  envCreateOffer : result string;
  envWriteOffer : option error;
  envSetLocalDescription : option error;
  envReadAnswer : result pb.Message;
  envSetRemoteDescription : option error;
  envSchedule : list RaceEvent;
  envPick : nat;
  envUnmarshal : string -> result ICECandidateInit;
  envAddICECandidate : ICECandidateInit -> option error;
  envFromNetAddr : string -> Z -> result ma.Multiaddr;
  envRemotePeer : string;
  envNewWebRTCConnection : option error
}.

(** [context.Context]: its deadline, if it has one. *)
Record Context : Type := { Deadline : option Z }.

(* ================================================================= *)
(** ** A monad for calls with a trace, and Go's [defer] *)

Definition M (A : Type) : Type := list event -> outcome A * list event.

Definition ret {A} (a : A) : M A := fun tr => (Ret a, tr).

Definition bind {A B} (m : M A) (k : A -> M B) : M B :=
  fun tr =>
    match m tr with
    | (Ret a, tr') => k a tr'
    | (Panic, tr') => (Panic, tr')
    end.

Definition emit (e : event) : M unit := fun tr => (Ret tt, tr ++ [e]).

Definition emitAll (es : list event) : M unit := fun tr => (Ret tt, tr ++ es).

Definition panic {A} : M A := fun tr => (Panic, tr).

Definition liftOutcome {A} (o : outcome A) : M A := fun tr => (o, tr).

(** [defer d; body]: [d] runs when [body] is left, by return or panic,
    and sees what [body] returned. *)
Definition defer {A} (d : outcome A -> M unit) (body : M A) : M A :=
  fun tr =>
    let (r, tr1) := body tr in
    match d r tr1 with
    | (Ret _, tr2) => (r, tr2)
    | (Panic, tr2) => (Panic, tr2)
    end.

Declare Scope go_scope.
Delimit Scope go_scope with go.
Notation "x <- m ;; k" := (bind m (fun x => k))
  (at level 61, m at next level, right associativity) : go_scope.
Notation "m ;;; k" := (bind m (fun _ => k))
  (at level 61, right associativity) : go_scope.
Local Open Scope go_scope.

(** A call that is logged and answers with an optional error. *)
Definition call (e : event) (answer : option error) : M (option error) :=
  emit e ;;; ret answer.

Definition callR {A} (e : event) (answer : result A) : M (result A) :=
  emit e ;;; ret answer.

Definition run {A} (m : M A) : outcome A * list event := m [].

Definition check {B} (msg : string) (m : M (option error))
           (k : M (result B)) : M (result B) :=
  e <- m ;;
  match e with
  | Some e => ret (Err (wrapError msg e))
  | None => k
  end.

Definition checkR {A B} (msg : string) (m : M (result A))
           (k : A -> M (result B)) : M (result B) :=
  r <- m ;;
  match r with
  | Err e => ret (Err (wrapError msg e))
  | OK a => k a
  end.

(* ================================================================= *)
(** ** The completion race of setupConnection *)

(** The three single-slot channels, [ctx.Err()], and whether the reader
    goroutine is still in its loop. *)
Record Race : Type := mkRace {
  connectionState : option PeerConnectionState;
  writeErr : option error;
  readErr : option error;
  ctxErr : option error;
  readerRunning : bool
}.

Definition raceInit : Race := mkRace None None None None true.

(** [select { case ch <- v: default: }] on a channel of capacity 1. *)
Definition trySend {A} (slot : option A) (v : A) : option A :=
  match slot with
  | None => Some v
  | Some _ => slot
  end.

(** The callback given to [pc.OnConnectionStateChange]. *)
Definition onConnectionStateChange (state : PeerConnectionState) (st : Race) : Race :=
  match state with
  | PeerConnectionStateConnected
  | PeerConnectionStateFailed
  | PeerConnectionStateClosed =>
      mkRace (trySend (connectionState st) state)
             (writeErr st) (readErr st) (ctxErr st) (readerRunning st)
  | _ => st
  end.

Definition sendWriteErr (e : error) (st : Race) : Race :=
  mkRace (connectionState st) (trySend (writeErr st) e)
         (readErr st) (ctxErr st) (readerRunning st).

(** The callback given to [pc.OnICECandidate]. *)
Definition onICECandidate (candidate : option LocalCandidate) (st : Race)
  : Race * list event :=
  match candidate with
  | None => (st, [])
  | Some c =>
      match candJSON c with
      | Err e => (sendWriteErr (wrapError "failed to marshal candidate to JSON" e) st, [])
      | OK data =>
          let msg := pb.mkMessage (Some pb.Message_ICE_CANDIDATE) (Some data) in
          match candWrite c with
          | Some e => (sendWriteErr (wrapError "failed to write candidate" e) st, [EvWriteMsg msg])
          | None => (st, [EvWriteMsg msg])
          end
      end
  end.

(** The reader goroutine leaves its loop, with or without an error on
    [readErr]. *)
Definition readerReturn (e : option error) (st : Race) : Race :=
  mkRace (connectionState st) (writeErr st)
         (match e with Some _ => e | None => readErr st end)
         (ctxErr st) false.

(** The loop of the reader goroutine past its test of [ctx.Err()]:
    [r.ReadMsg] answers [r], and the message is dealt with. *)
Definition readerRead (env : Env) (r : ReadResult) (st : Race) : Race * list event :=
  match r with
  | ReadEOF => (readerReturn None st, [EvReadMsg])
  | ReadFail e => (readerReturn (Some (wrapError "read failed" e)) st, [EvReadMsg])
  | ReadMsg msg =>
      if pb.typeIsNot msg pb.Message_ICE_CANDIDATE then
        (readerReturn (Some (errorString "invalid message: expected ICE_CANDIDATE")) st,
         [EvReadMsg])
      else if pb.dataEmpty msg then (st, [EvReadMsg])
      else
        match envUnmarshal env (match pb.Data msg with Some d => d | None => "" end) with
        | Err e =>
            (readerReturn (Some (wrapError "failed to unmarshal ice candidate" e)) st,
             [EvReadMsg])
        | OK init =>
            match envAddICECandidate env init with
            | Some e =>
                (readerReturn (Some (wrapError "failed to add ice candidate" e)) st,
                 [EvReadMsg; EvAddICECandidate init])
            | None => (st, [EvReadMsg; EvAddICECandidate init])
            end
        end
  end.

(** One pass of the loop of the reader goroutine, from its test on. *)
Definition readerPass (env : Env) (r : ReadResult) (st : Race) : Race * list event :=
  if negb (readerRunning st) then (st, [])
  else
    match ctxErr st with
    | Some _ => (readerReturn None st, [])
    | None => readerRead env r st
    end.

(** The test that opens the next pass, for a reader that goes round
    again while the context has ended: [ctx.Err()] stays non-nil once it
    is, so the reader returns there whenever the test is made. *)
Definition readerTest (st : Race) : Race :=
  if readerRunning st then
    match ctxErr st with
    | Some _ => readerReturn None st
    | None => st
    end
  else st.

(** A read begun while the context was alive answers, whatever has become
    of the context since; the rest of the pass follows, and the test of
    the next one. *)
Definition readInFlight (env : Env) (r : ReadResult) (st : Race) : Race * list event :=
  if negb (readerRunning st) then (st, [])
  else
    let (st1, out) := readerRead env r st in
    (readerTest st1, out).

Definition contextDone (e : error) (st : Race) : Race :=
  mkRace (connectionState st) (writeErr st) (readErr st)
         (trySend (ctxErr st) e) (readerRunning st).

Definition raceStep (env : Env) (ev : RaceEvent) (st : Race) : Race * list event :=
  match ev with
  | ConnectionStateChange s => (onConnectionStateChange s st, [])
  | ICECandidateFound c => onICECandidate c st
  | ReaderPass r => readerPass env r st
  | ContextDone e => (contextDone e st, [])
  | ReadInFlight r => readInFlight env r st
  end.

Fixpoint raceRun (env : Env) (evs : list RaceEvent) (st : Race) : Race * list event :=
  match evs with
  | [] => (st, [])
  | ev :: rest =>
      let (st1, out1) := raceStep env ev st in
      let (st2, out2) := raceRun env rest st1 in
      (st2, out1 ++ out2)
  end.

(** What the [select] of the main flow can receive. *)
Inductive Signal : Type :=
| SigDone (e : error)                       (* <-ctx.Done() *)
| SigReadErr (e : error)                     (* <-readErr *)
| SigWriteErr (e : error)                    (* <-writeErr *)
| SigState (s : PeerConnectionState).        (* <-connectionState *)

Definition optList {A B} (f : A -> B) (o : option A) : list B :=
  match o with
  | Some a => [f a]
  | None => []
  end.

(** The cases of the [select] that are ready, in the order of the source. *)
Definition readySignals (st : Race) : list Signal :=
  optList SigDone (ctxErr st) ++ optList SigReadErr (readErr st)
  ++ optList SigWriteErr (writeErr st) ++ optList SigState (connectionState st).

(** [select]: one of the ready cases, any of them ([pick] stands for the
    runtime's choice).  The context carries the [connectTimeout] deadline,
    so when nothing else is ready the wait ends on [ctx.Done()] with
    [DeadlineExceeded]. *)
Definition selectSignal (pick : nat) (st : Race) : Signal :=
  let rs := readySignals st in
  nth (pick mod List.length rs) rs (SigDone DeadlineExceeded).

(* ================================================================= *)
(** ** The transport *)

Record Listener : Type := mkListener {
  listenerID : nat;              (* the pointer *)
  inflightCap : Z                (* cap(inflightQueue) *)
}.

(** [host.Host]: its peer ID and the stream handlers set on it (here the
    listener whose [handleSignalingStream] is the handler). *)
Record Host : Type := mkHost {
  ID : string;
  handlers : string -> option Listener
}.

Record transport : Type := mkTransport {
  host : Host;
  gater : option (Direction -> string -> CapableConn -> bool);
  maxInFlightConnections : Z;
  listener : option Listener
}.

Definition SetStreamHandler (h : Host) (pid : string) (l : Listener) : Host :=
  mkHost (ID h) (fun q => if String.eqb q pid then Some l else handlers h q).

Definition RemoveStreamHandler (h : Host) (pid : string) : Host :=
  mkHost (ID h) (fun q => if String.eqb q pid then None else handlers h q).

(** [CanDial] determines if we can dial to an address.  It reads
    nothing of its receiver and returns only the boolean. *)
Definition CanDial (t : transport) (addr : ma.Multiaddr) : bool :=
  let (circuit, webrtc) := ma.ForEach addr canDialStep (false, false) in
  circuit && webrtc.

(** [getLocalConnectionAddress] returns the local connection multiaddr. *)
Definition getLocalConnectionAddress (env : Env) (pc : PeerConnection)
  : result ma.Multiaddr :=
  match SCTP pc with
  | None => Err (errorString "no sctp transport")
  | Some sctp =>
      match Transport sctp with
      | None => Err (errorString "no dtls transport")
      | Some dtls =>
          match getICETransport dtls with
          | None => Err (errorString "no ice transport")
          | Some ice =>
              match GetSelectedCandidatePair ice with
              | (Some cp, None) =>
                  match envFromNetAddr env (Address (Local cp)) (Port (Local cp)) with
                  | Err e => Err (wrapError "failed to infer local address from candidate" e)
                  | OK localAddr => OK (ma.encapsulate localAddr WebRTCAddr)
                  end
              | (_, Some e) => Err (wrapError "invalid candidate pair" e)
              | (None, None) => Err (errorString "invalid candidate pair")
              end
          end
      end
  end.

(** The first deferred function of [setupConnection]:
    [if err != nil { pc.Close() }], with [pc] as it is at exit.  It is
    registered before [NewPeerConnection] is called: when that call fails
    [pc] is still nil and [Close] dereferences it. *)
Definition closeOnError {A} (pc : option PeerConnection)
           (r : outcome (result A)) : M unit :=
  match r with
  | Ret (Err _) =>
      match pc with
      | Some _ => emit EvPcClose
      | None => panic
      end
  | _ => ret tt
  end.

(** [setupConnection] from the [select] on. *)
Definition awaitConnection (t : transport) (env : Env) (pc : PeerConnection)
           (scope : ConnManagementScope) (raddr : ma.Multiaddr)
  : M (result CapableConn) :=
  let (st, out) := raceRun env (envSchedule env) raceInit in
  emitAll out ;;;
  match selectSignal (envPick env) st with
  | SigDone e => emit EvPcClose ;;; ret (Err e)
  | SigReadErr e => emit EvPcClose ;;; ret (Err e)
  | SigWriteErr e => emit EvPcClose ;;; ret (Err e)
  | SigState PeerConnectionStateConnected =>
      match getLocalConnectionAddress env pc with
      | Err e =>
          emit EvPcClose ;;;
          ret (Err (wrapError "failed to get connection addresses" e))
      | OK localAddr =>
          e <- call EvNewWebRTCConnection (envNewWebRTCConnection env) ;;
          match e with
          | Some e =>
              emit EvPcClose ;;;
              ret (Err (wrapError "failed to create tpt.CapableConn" e))
          | None =>
              ret (OK (mkConn DirOutbound pc scope (ID (host t)) localAddr
                              (envRemotePeer env) raddr))
          end
      end
  | SigState _ =>
      emit EvPcClose ;;;
      ret (Err (errorString "conn establishment failed"))
  end.

(** [setupConnection] once the answer has been read into [msg]. *)
Definition applyAnswer (t : transport) (env : Env) (pc : PeerConnection)
           (scope : ConnManagementScope) (raddr : ma.Multiaddr) (msg : pb.Message)
  : M (result CapableConn) :=
  if pb.typeIsNot msg pb.Message_SDP_ANSWER then
    ret (Err (errorString "invalid message: expected SDP_ANSWER"))
  else if pb.dataEmpty msg then
    ret (Err (errorString "invalid message: empty answer"))
  else
    let sdp := match pb.Data msg with Some d => d | None => "" end in
    check "failed to set remote description"
          (call (EvSetRemoteDescription sdp) (envSetRemoteDescription env))
          (defer (fun _ => emit EvCancel) (awaitConnection t env pc scope raddr)).

(** [setupConnection] once the endpoint exists. *)
Definition negotiate (t : transport) (env : Env) (pc : PeerConnection)
           (scope : ConnManagementScope) (raddr : ma.Multiaddr)
  : M (result CapableConn) :=
  defer (fun _ => emit EvOnICECandidateOff)
    (check "failed to create data channel"
       (call EvCreateDataChannel (envCreateDataChannel env))
       (defer (fun _ => emit EvDcClose)
          (checkR "failed to create offer"
             (callR EvCreateOffer (envCreateOffer env))
             (fun sdp =>
                let offer := pb.mkMessage (Some pb.Message_SDP_OFFER) (Some sdp) in
                check "failed to write to stream"
                  (call (EvWriteMsg offer) (envWriteOffer env))
                  (check "failed to set local description"
                     (call (EvSetLocalDescription sdp) (envSetLocalDescription env))
                     (checkR "failed to read from stream"
                        (callR EvReadMsg (envReadAnswer env))
                        (applyAnswer t env pc scope raddr))))))).

Definition setupConnection (t : transport) (env : Env)
           (scope : ConnManagementScope) (raddr : ma.Multiaddr)
  : M (result CapableConn) :=
  match envNewPeerConnection env with
  | Err e =>
      defer (closeOnError None)
        (emit EvNewPeerConnection ;;;
         ret (Err (wrapError "failed to create webrtc.PeerConnection" e)))
  | OK pc =>
      defer (closeOnError (Some pc))
        (emit EvNewPeerConnection ;;; negotiate t env pc scope raddr)
  end.

(** [min(now + connectTimeout, ctx.Deadline())] *)
Definition streamDeadline (env : Env) (ctx : Context) : Z :=
  let deadline := (envNow env + connectTimeout)%Z in
  match Deadline ctx with
  | Some d => if (d <? deadline)%Z then d else deadline
  | None => deadline
  end.

Definition dialWithScope (t : transport) (env : Env) (ctx : Context) (p : string)
           (scope : ConnManagementScope) (raddr : ma.Multiaddr)
  : M (result CapableConn) :=
  check "error opening stream /webrtc-signaling"
    (call (EvNewStream p SignalingProtocol) (envNewStream env))
    (e <- call (EvSetService name) (envSetService env) ;;
     match e with
     | Some e =>
         emit EvStreamReset ;;;
         ret (Err (wrapError "error attaching signaling stream to webrtcprivate transport" e))
     | None =>
         match envReserveMemory env with
         | Some e =>
             emit (EvReserveMemory (2 * maxMsgSize) false) ;;;
             emit EvStreamReset ;;;
             ret (Err (wrapError "error reserving memory for signaling stream" e))
         | None =>
             emit (EvReserveMemory (2 * maxMsgSize) true) ;;;
             defer (fun _ => emit (EvReleaseMemory maxMsgSize))
               (defer (fun _ => emit EvStreamClose)
                  (emit (EvSetDeadline (streamDeadline env ctx)) ;;;
                   r <- setupConnection t env scope raddr ;;
                   match r with
                   | Err e =>
                       emit EvStreamReset ;;;
                       ret (Err (wrapError "error establishing webrtc.PeerConnection" e))
                   | OK conn =>
                       match gater t with
                       | Some intercept =>
                           emit EvInterceptSecured ;;;
                           if intercept DirOutbound p conn then ret (OK conn)
                           else
                             emit EvConnClose ;;;
                             emit EvStreamReset ;;;
                             ret (Err (errorString "conn gater refused connection to addr"))
                       | None => ret (OK conn)
                       end
                   end))
         end
     end).

Definition Dial (t : transport) (env : Env) (ctx : Context)
           (raddr : ma.Multiaddr) (p : string) : M (result CapableConn) :=
  relayAddr <- liftOutcome (getRelayAddr raddr) ;;
  check "failed to open /webrtc-signaling stream"
    (call (EvConnect p relayAddr) (envConnect env))
    (emit (EvOpenConnection raddr) ;;;
     match envOpenConnection env with
     | Err e => ret (Err e)
     | OK scope =>
         e <- call (EvScopeSetPeer p) (envSetPeer env) ;;
         match e with
         | Some e => ret (Err e)
         | None =>
             r <- dialWithScope t env ctx p scope raddr ;;
             match r with
             | Err e => emit EvScopeDone ;;; ret (Err e)
             | OK c => ret (OK c)
             end
         end
     end).

Definition Protocols : list Z := [ma.P_WEBRTC].

Definition Proxy : bool := false.

(** [newTransport], given whether key and certificate could be generated. *)
Definition newTransport (h : Host)
           (g : option (Direction -> string -> CapableConn -> bool))
           (generateKey generateCertificate : option error) : result transport :=
  match generateKey with
  | Some e => Err (wrapError "generate key for cert" e)
  | None =>
      match generateCertificate with
      | Some e => Err (wrapError "generate certificate" e)
      | None => OK (mkTransport h g 16 None)
      end
  end.

(** [Listen]; [ptr] is the address of the listener it allocates. *)
Definition Listen (t : transport) (laddr : ma.Multiaddr) (ptr : nat)
  : result Listener * transport :=
  match ma.ValueForProtocol laddr ma.P_WEBRTC with
  | Err _ => (Err (errorString "invalid listen multiaddr"), t)
  | OK _ =>
      match listener t with
      | Some _ => (Err (errorString "already listening on /webrtc"), t)
      | None =>
          let l := mkListener ptr (maxInFlightConnections t) in
          (OK l,
           mkTransport (SetStreamHandler (host t) SignalingProtocol l)
                       (gater t) (maxInFlightConnections t) (Some l))
      end
  end.

(** [t.listener == l], on pointers, either of which may be nil. *)
Definition samePointer (a l : option Listener) : bool :=
  match a, l with
  | Some l1, Some l2 => Nat.eqb (listenerID l1) (listenerID l2)
  | None, None => true
  | _, _ => false
  end.

Definition RemoveListener (t : transport) (l : option Listener) : transport :=
  if samePointer (listener t) l then
    mkTransport (RemoveStreamHandler (host t) SignalingProtocol)
                (gater t) (maxInFlightConnections t) None
  else t.

(* ================================================================= *)
(** ** The address shapes the specification names *)

(** A relay segment immediately followed by a direct-upgrade segment,
    somewhere in the address. *)
Fixpoint relayThenUpgrade (cs : list ma.Component) : bool :=
  match cs with
  | c :: (d :: _) as rest => (ma.isCircuit c && ma.isWebRTC d) || relayThenUpgrade rest
  | _ => false
  end.

Definition hasWebRTC (cs : list ma.Component) : bool := existsb ma.isWebRTC cs.

(** "CanDial(addr) is true exactly when addr contains a relay component
    immediately followed by a direct-upgrade component." *)
Definition CanDial_iff_adjacent (t : transport) (addr : ma.Multiaddr) : Prop :=
  CanDial t addr = true <-> relayThenUpgrade (ma.components addr) = true.

(** "Encapsulating getRelayAddr(a) with /webrtc gives an address equivalent
    to a for dialing": at the least one that can still be dialed and that
    leads to the same relay address. *)
Definition roundTrip_of_dialable (t : transport) (a : ma.Multiaddr) : Prop :=
  CanDial t a = true ->
  exists r a',
    getRelayAddr a = Ret r /\
    ma.Encapsulate r (Some WebRTCAddr) = Ret a' /\
    CanDial t a' = true /\
    getRelayAddr a' = getRelayAddr a.

(** "Without a /webrtc component the address comes back unchanged; with
    one, exactly the first is removed and the rest keeps its order." *)
Definition getRelayAddr_removes_first (a : ma.Multiaddr) : Prop :=
  (hasWebRTC (ma.components a) = false -> getRelayAddr a = Ret (Some a)) /\
  (forall pre w post,
      ma.components a = pre ++ w :: post ->
      hasWebRTC pre = false -> ma.isWebRTC w = true ->
      exists r, getRelayAddr a = Ret r /\ ma.optComponents r = pre ++ post).

(** What [CanDial] looks at: past the first relay component, the first
    component that is not a relay component. *)
Fixpoint upgradeNext (cs : list ma.Component) : bool :=
  match cs with
  | [] => false
  | c :: rest => if ma.isCircuit c then upgradeNext rest else ma.isWebRTC c
  end.

Fixpoint dialShape (cs : list ma.Component) : bool :=
  match cs with
  | [] => false
  | c :: rest => if ma.isCircuit c then upgradeNext rest else dialShape rest
  end.

(* ================================================================= *)
(** ** Reading a trace *)

Definition isStreamReset (e : event) : bool :=
  match e with EvStreamReset => true | _ => false end.

Definition isStreamClose (e : event) : bool :=
  match e with EvStreamClose => true | _ => false end.

Definition isScopeDone (e : event) : bool :=
  match e with EvScopeDone => true | _ => false end.


Definition count (f : event -> bool) (tr : list event) : nat :=
  List.length (filter f tr).

(** The first call that ends the stream, [Reset] or [Close]. *)
Definition firstStreamEnd (tr : list event) : option event :=
  find (fun e => isStreamReset e || isStreamClose e) tr.

(** Memory of the signaling stream's scope: what was granted, less what
    was released. *)
Definition memoryDelta (e : event) : Z :=
  match e with
  | EvReserveMemory n true => n
  | EvReleaseMemory n => (- n)%Z
  | _ => 0%Z
  end.

Definition reservedMemory (tr : list event) : Z :=
  fold_right (fun e acc => (memoryDelta e + acc)%Z) 0%Z tr.

(** The dialer got its stream, its service tag and its memory. *)
Definition streamReady (env : Env) : Prop :=
  envNewStream env = None /\ envSetService env = None /\ envReserveMemory env = None.

(** The endpoint was made and the offer sent and set. *)
Definition offerSent (env : Env) (pc : PeerConnection) (sdp : string) : Prop :=
  envNewPeerConnection env = OK pc /\
  envCreateDataChannel env = None /\
  envCreateOffer env = OK sdp /\
  envWriteOffer env = None /\
  envSetLocalDescription env = None.

Definition offerMsg (sdp : string) : pb.Message :=
  pb.mkMessage (Some pb.Message_SDP_OFFER) (Some sdp).

(** The calls of [setupConnection] up to the read of the answer. *)
Definition offerTrace (sdp : string) : list event :=
  [EvNewPeerConnection; EvCreateDataChannel; EvCreateOffer;
   EvWriteMsg (offerMsg sdp); EvSetLocalDescription sdp; EvReadMsg].

(** The calls of [dialWithScope] before [setupConnection]. *)
Definition streamTrace (env : Env) (ctx : Context) (p : string) : list event :=
  [EvNewStream p SignalingProtocol; EvSetService name;
   EvReserveMemory (2 * maxMsgSize) true; EvSetDeadline (streamDeadline env ctx)].

(** The answer was read, is an answer with a payload, and was applied. *)
Definition answerApplied (env : Env) (answer : string) : Prop :=
  envReadAnswer env = OK (pb.mkMessage (Some pb.Message_SDP_ANSWER) (Some answer)) /\
  answer <> "" /\
  envSetRemoteDescription env = None.

(** The race as the select of [setupConnection] finds it. *)
Definition raceAtSelect (env : Env) : Race :=
  fst (raceRun env (envSchedule env) raceInit).

(* ================================================================= *)
(** ** A dial that succeeds, and variations of it *)

Definition udp (s : string) : ma.Component := ma.mkComponent ma.P_UDP s.

Definition samplePC : PeerConnection :=
  {| SCTP := Some {| Transport := Some {| getICETransport := Some
       {| GetSelectedCandidatePair :=
            (Some {| Local := {| Address := "10.0.0.1"; Port := 4001 |};
                     Remote := {| Address := "10.0.0.2"; Port := 4002 |} |},
             None) |} |} |} |}.

Definition candidateMsg (data : option string) : pb.Message :=
  pb.mkMessage (Some pb.Message_ICE_CANDIDATE) data.

Definition answerMsg (sdp : string) : pb.Message :=
  pb.mkMessage (Some pb.Message_SDP_ANSWER) (Some sdp).

Definition sampleSchedule : list RaceEvent :=
  [ ICECandidateFound (Some {| candJSON := OK "{local}"; candWrite := None |});
    ConnectionStateChange PeerConnectionStateConnecting;
    ReaderPass (ReadMsg (candidateMsg (Some "{remote}")));
    ReaderPass (ReadMsg (candidateMsg (Some "")));
    ICECandidateFound None;
    ConnectionStateChange PeerConnectionStateConnected ].

(** Every collaborator agrees, except as the arguments say. *)
Definition envWith (setPeer : option error) (answer : result pb.Message)
           (schedule : list RaceEvent) : Env :=
  {| envConnect := None;
     envOpenConnection := OK {| scopeID := 7 |};
     envSetPeer := setPeer;
     envNewStream := None;
     envSetService := None;
     envReserveMemory := None;
     envNow := 1000;
     envNewPeerConnection := OK samplePC;
     envCreateDataChannel := None;
     envCreateOffer := OK "v=0 offer";
     envWriteOffer := None;
     envSetLocalDescription := None;
     envReadAnswer := answer;
     envSetRemoteDescription := None;
     envSchedule := schedule;
     envPick := 0;
     envUnmarshal := fun s => OK {| Candidate := s |};
     envAddICECandidate := fun _ => None;
     envFromNetAddr := fun a port => OK (ma.MaBytes [ip4 a; udp "4001"]);
     envRemotePeer := "QmPeer";
     envNewWebRTCConnection := None |}.

Definition sampleEnv : Env := envWith None (OK (answerMsg "v=0 answer")) sampleSchedule.

Definition sampleScope : ConnManagementScope := {| scopeID := 7 |}.
Definition sampleCtx : Context := {| Deadline := None |}.

Definition sampleAddr : ma.Multiaddr :=
  ma.MaBytes [ip4 "1.2.3.4"; tcp "1"; p2p "R"; ma.circuitComponent; ma.webrtcComponent].

(** A transport with no gater and no listener. *)
Definition sampleHost : Host := mkHost "QmSelf" (fun _ => None).
Definition sampleTransport : transport := mkTransport sampleHost None 16 None.

(* ================================================================= *)
(** ** Predicates of the statements and of their proofs *)

(** /p2p/R/p2p-circuit/p2p/P/p2p-circuit/webrtc: a relay hop, a second
    relay hop, and the marker right after the second. *)
Definition twoHopAddr : ma.Multiaddr :=
  ma.MaBytes [p2p "R"; ma.circuitComponent; p2p "P"; ma.circuitComponent; ma.webrtcComponent].

(** /webrtc/p2p/P: the marker first, a segment after it. *)
Definition markerFirstAddr : ma.Multiaddr :=
  ma.MaBytes [ma.webrtcComponent; p2p "P"].

(** /p2p/R/p2p-circuit/webrtc/p2p/P: dialable, the peer after the marker. *)
Definition peerAfterMarkerAddr : ma.Multiaddr :=
  ma.MaBytes [p2p "R"; ma.circuitComponent; ma.webrtcComponent; p2p "P"].

(** The same with a second marker as last segment: without it, what is
    left still holds a marker. *)
Definition twoMarkerAddr : ma.Multiaddr :=
  ma.MaBytes [p2p "R"; ma.circuitComponent; ma.webrtcComponent; p2p "P"; ma.webrtcComponent].

(** "With a listener registered Listen fails and leaves it; with none
    registered Listen installs the new listener and the handler." *)
Definition Listen_installs_when_free (t : transport) (laddr : ma.Multiaddr)
           (ptr : nat) : Prop :=
  (forall l, listener t = Some l -> exists e, Listen t laddr ptr = (Err e, t)) /\
  (listener t = None ->
   exists l t',
     Listen t laddr ptr = (OK l, t') /\
     listener t' = Some l /\
     handlers (host t') SignalingProtocol = Some l).

(** The states the [OnConnectionStateChange] callback passes on. *)
Definition terminalState (s : PeerConnectionState) : bool :=
  match s with
  | PeerConnectionStateConnected
  | PeerConnectionStateFailed
  | PeerConnectionStateClosed => true
  | _ => false
  end.

(** The connection-state channel is empty or holds such a state. *)
Definition holdsTerminal (st : Race) : Prop :=
  forall s, connectionState st = Some s -> terminalState s = true.

(** The error [setupConnection] returns for such a message. *)
Definition answerError (msg : pb.Message) : error :=
  if pb.typeIsNot msg pb.Message_SDP_ANSWER
  then errorString "invalid message: expected SDP_ANSWER"
  else errorString "invalid message: empty answer".

(** The remote sends one candidate and an empty one; the endpoint never
    connects before the deadline. *)
Definition stalledSchedule : list RaceEvent :=
  [ ConnectionStateChange PeerConnectionStateConnecting;
    ReaderPass (ReadMsg (candidateMsg (Some "{remote}")));
    ReaderPass (ReadMsg (candidateMsg None));
    ContextDone DeadlineExceeded ].

(** Whatever the trace so far, [m] only appends to it, and only events
    that satisfy [P]. *)
Definition appendsOnly {A} (P : event -> Prop) (m : M A) : Prop :=
  forall tr, exists out, snd (m tr) = tr ++ out /\ Forall P out.

(** The calls [setupConnection] makes: on the endpoint, its data channel,
    the reader and writer of the stream, and the context. *)
Definition sessionEvent (e : event) : bool :=
  match e with
  | EvWriteMsg _ | EvReadMsg | EvNewPeerConnection | EvPcClose
  | EvOnICECandidateOff | EvCreateDataChannel | EvDcClose | EvCreateOffer
  | EvSetLocalDescription _ | EvSetRemoteDescription _ | EvAddICECandidate _
  | EvCancel | EvNewWebRTCConnection => true
  | _ => false
  end.

Definition isSession (e : event) : Prop := sessionEvent e = true.

(** Whatever the trace so far, what [m] returns satisfies [Q]. *)
Definition returnsOnly {A} (Q : A -> Prop) (m : M A) : Prop :=
  forall tr, match fst (m tr) with Ret a => Q a | Panic => True end.

(** A connection, if one is returned, holds [scope] and [raddr]. *)
Definition connOf (scope : ConnManagementScope) (raddr : ma.Multiaddr)
           (r : result CapableConn) : Prop :=
  match r with
  | OK c => connScope c = scope /\ connRemoteAddr c = raddr
  | Err _ => True
  end.

(** Any call but [scope.Done()]. *)
Definition notScopeDone (e : event) : Prop := isScopeDone e = false.

(** Dial up to and including [scope.SetPeer]. *)
Definition scopeOpened (env : Env) (raddr : ma.Multiaddr)
           (relay : option ma.Multiaddr) (scope : ConnManagementScope) : Prop :=
  getRelayAddr raddr = Ret relay /\
  envConnect env = None /\
  envOpenConnection env = OK scope.

(** What the resource manager answers when the peer is over its limit. *)
Definition resourceLimit : error := errorString "resource limit exceeded".

(* ================================================================= *)
(** ** More readings of a trace *)

Definition isDcClose (e : event) : bool :=
  match e with EvDcClose => true | _ => false end.

Definition isCallbackOff (e : event) : bool :=
  match e with EvOnICECandidateOff => true | _ => false end.

Definition isCancel (e : event) : bool :=
  match e with EvCancel => true | _ => false end.

Definition isReadMsg (e : event) : bool :=
  match e with EvReadMsg => true | _ => false end.

Definition isAddICECandidate (e : event) : bool :=
  match e with EvAddICECandidate _ => true | _ => false end.

Definition isSetRemoteDescription (e : event) : bool :=
  match e with EvSetRemoteDescription _ => true | _ => false end.

Definition isInterceptSecured (e : event) : bool :=
  match e with EvInterceptSecured => true | _ => false end.

Definition isConnClose (e : event) : bool :=
  match e with EvConnClose => true | _ => false end.

(** The calls the callbacks and the reader goroutine make. *)
Definition wireEvent (e : event) : bool :=
  match e with
  | EvWriteMsg _ | EvReadMsg | EvAddICECandidate _ => true
  | _ => false
  end.

(** What the reader goroutine does with the payloads [ds] of a run of
    Candidate messages, when decoding and adding succeed. *)
Definition forwarded (env : Env) (ds : list string) : list event :=
  flat_map (fun d =>
              if String.eqb d "" then [EvReadMsg]
              else match envUnmarshal env d with
                   | OK init => [EvReadMsg; EvAddICECandidate init]
                   | Err _ => [EvReadMsg]
                   end) ds.

(** What the [OnICECandidate] callback writes for the candidates [cs],
    nil pointers among them. *)
Definition announced (cs : list (option LocalCandidate)) : list event :=
  flat_map (fun oc =>
              match oc with
              | Some c =>
                  match candJSON c with
                  | OK data => [EvWriteMsg (candidateMsg (Some data))]
                  | Err _ => []
                  end
              | None => []
              end) cs.

(* ================================================================= *)
(** ** The TLS connection adapter *)

(** [package libp2ptls], [conn]: a [*tls.Conn] with the identities of the
    two peers and the connection state.  The types of the embedded
    connection, the keys and the state are those of other packages. *)
Module libp2ptls.

Section Conn.

Variables (TLSConn PrivKey PubKey ConnectionState : Type).

Record conn : Type := mkConn {
  Conn : TLSConn;
  localPeer : string;
  privKey : PrivKey;
  remotePeer : string;
  remotePubKey : PubKey;
  connectionState : ConnectionState
}.

Definition LocalPeer (c : conn) : string := localPeer c.

Definition LocalPrivateKey (c : conn) : PrivKey := privKey c.

Definition RemotePeer (c : conn) : string := remotePeer c.

Definition RemotePublicKey (c : conn) : PubKey := remotePubKey c.

Definition ConnState (c : conn) : ConnectionState := connectionState c.

(** [SetConnState] assigns through the pointer: the connection after it. *)
Definition SetConnState (c : conn) (state : ConnectionState) : conn :=
  mkConn (Conn c) (localPeer c) (privKey c) (remotePeer c) (remotePubKey c) state.

End Conn.

End libp2ptls.

(* ================================================================= *)
(** ** Predicates of the further properties *)

(** A slot that holds a value keeps it, and a reader that has an error on
    its channel has left its loop. *)
Definition settled (a b : Race) : Prop :=
  (forall s, connectionState a = Some s -> connectionState b = Some s) /\
  (forall e, writeErr a = Some e -> writeErr b = Some e) /\
  (forall e, ctxErr a = Some e -> ctxErr b = Some e) /\
  (readerRunning a = false -> readerRunning b = false /\ readErr b = readErr a).

Definition readerDone (st : Race) : Prop :=
  readErr st <> None -> readerRunning st = false.

(** An event of the trace that is neither a read of the stream nor a
    candidate handed to the endpoint. *)
Definition quietReader (e : event) : Prop :=
  isReadMsg e = false /\ isAddICECandidate e = false.

(** The deadline passes while the reader is blocked in its read; three
    more messages arrive from the remote. *)
Definition lateSchedule : list RaceEvent :=
  [ ContextDone DeadlineExceeded;
    ReadInFlight (ReadMsg (candidateMsg (Some "{a}")));
    ReadInFlight (ReadMsg (candidateMsg (Some "{b}")));
    ReaderPass (ReadMsg (candidateMsg (Some "{c}"))) ].

(** The remote sends something that is not a candidate. *)
Definition intruderSchedule : list RaceEvent :=
  [ ReaderPass (ReadMsg (answerMsg "v=0 again")) ].

(** What [dialWithScope] appends to a trace, by result. *)
Definition dialOutcome (t : transport) (env : Env) (p : string)
           (r : outcome (result CapableConn)) (out : list event) : Prop :=
  match r with
  | Ret (OK c) =>
      streamReady env /\
      count isStreamReset out = 0 /\
      count isStreamClose out = 1 /\
      count isConnClose out = 0 /\
      match gater t with
      | Some intercept =>
          intercept DirOutbound p c = true /\ count isInterceptSecured out = 1
      | None => count isInterceptSecured out = 0
      end
  | Ret (Err _) =>
      (envNewStream env <> None /\ out = [EvNewStream p SignalingProtocol]) \/
      (envNewStream env = None /\
       count isStreamReset out = 1 /\
       firstStreamEnd out = Some EvStreamReset /\
       (In EvNewPeerConnection out -> streamReady env))
  | Panic =>
      streamReady env /\ count isStreamReset out = 0 /\ count isStreamClose out = 1
  end.

(** A gater that lets outbound connections to QmPeer through. *)
Definition gatedTransport : transport :=
  mkTransport sampleHost
              (Some (fun dir p _ => match dir with
                                    | DirOutbound => String.eqb p "QmPeer"
                                    | DirInbound => false
                                    end))
              16 None.

(** A transport without listener on a host where the handler of the
    signaling protocol was set from elsewhere. *)
Definition foreignHandlerTransport : transport :=
  mkTransport (SetStreamHandler sampleHost SignalingProtocol (mkListener 7 16))
              None 16 None.

(** A deadline set on the stream is the one [dialWithScope] computes. *)
Definition deadlineIs (env : Env) (ctx : Context) (e : event) : Prop :=
  forall d, e = EvSetDeadline d -> d = streamDeadline env ctx.

(* ================================================================= *)
(** * Theorems *)

(** ** CanDial *)

Section CanDialFacts.

Lemma webrtc_not_circuit c : ma.isWebRTC c = true -> ma.isCircuit c = false.
Proof.
  unfold ma.isWebRTC, ma.isCircuit, ma.P_WEBRTC, ma.P_CIRCUIT.
  intros H. apply Z.eqb_eq in H. rewrite H. reflexivity.
Qed.

Lemma forEach_after_circuit cs w0 :
  ma.forEachFrom cs canDialStep (true, w0)
  = (true, match cs with [] => w0 | _ => upgradeNext cs end)
  \/ (forallb ma.isCircuit cs = true /\
      ma.forEachFrom cs canDialStep (true, w0) = (true, w0)).
Proof.
  revert w0. induction cs as [|c rest IH]; intros w0.
  - left. reflexivity.
  - simpl. fold (ma.isCircuit c). destruct (ma.isCircuit c) eqn:Hc.
    + destruct (IH w0) as [H | [Hall H]].
      * destruct rest as [|d rest'].
        -- right. split; [reflexivity | exact H].
        -- left. exact H.
      * right. split; [exact Hall | exact H].
    + left. reflexivity.
Qed.

Lemma upgradeNext_all_circuit cs :
  forallb ma.isCircuit cs = true -> upgradeNext cs = false.
Proof.
  induction cs as [|c rest IH]; simpl; intros H; [reflexivity|].
  apply andb_true_iff in H. destruct H as [Hc Hr].
  rewrite Hc. auto.
Qed.

Lemma forEach_circuit_seen cs :
  ma.forEachFrom cs canDialStep (true, false) = (true, upgradeNext cs).
Proof.
  destruct (forEach_after_circuit cs false) as [H | [Hall H]].
  - rewrite H. destruct cs; reflexivity.
  - rewrite H, (upgradeNext_all_circuit _ Hall). reflexivity.
Qed.

Lemma forEach_from_start cs :
  (let (circuit, webrtc) := ma.forEachFrom cs canDialStep (false, false) in
   circuit && webrtc) = dialShape cs.
Proof.
  induction cs as [|c rest IH]; simpl; [reflexivity|].
  fold (ma.isCircuit c). destruct (ma.isCircuit c).
  - rewrite forEach_circuit_seen. reflexivity.
  - exact IH.
Qed.

Lemma CanDial_dialShape t addr : CanDial t addr = dialShape (ma.components addr).
Proof.
  destruct addr as [c | cs]; unfold CanDial; simpl.
  - fold (ma.isCircuit c). destruct (ma.isCircuit c); reflexivity.
  - apply forEach_from_start.
Qed.

Lemma upgradeNext_true cs :
  upgradeNext cs = true <->
  exists mid w post,
    cs = mid ++ w :: post /\ forallb ma.isCircuit mid = true /\ ma.isWebRTC w = true.
Proof.
  split.
  - induction cs as [|c rest IH]; simpl; [discriminate|].
    destruct (ma.isCircuit c) eqn:Hc; intros H.
    + destruct (IH H) as (mid & w & post & -> & Hm & Hw).
      exists (c :: mid), w, post. simpl. rewrite Hc, Hm. auto.
    + exists [], c, rest. auto.
  - intros (mid & w & post & -> & Hm & Hw).
    induction mid as [|c mid IH]; simpl.
    + rewrite (webrtc_not_circuit _ Hw). exact Hw.
    + simpl in Hm. apply andb_true_iff in Hm. destruct Hm as [Hc Hm].
      rewrite Hc. auto.
Qed.

Lemma dialShape_true cs :
  dialShape cs = true <->
  exists pre c mid w post,
    cs = pre ++ c :: mid ++ w :: post /\
    existsb ma.isCircuit pre = false /\
    ma.isCircuit c = true /\
    forallb ma.isCircuit mid = true /\
    ma.isWebRTC w = true.
Proof.
  split.
  - induction cs as [|c rest IH]; simpl; [discriminate|].
    destruct (ma.isCircuit c) eqn:Hc; intros H.
    + apply upgradeNext_true in H. destruct H as (mid & w & post & -> & Hm & Hw).
      exists [], c, mid, w, post. auto.
    + destruct (IH H) as (pre & c' & mid & w & post & -> & Hp & Hc' & Hm & Hw).
      exists (c :: pre), c', mid, w, post. simpl. rewrite Hc, Hp. auto.
  - intros (pre & c & mid & w & post & -> & Hp & Hc & Hm & Hw).
    induction pre as [|d pre IH]; simpl.
    + rewrite Hc. apply upgradeNext_true. exists mid, w, post. auto.
    + simpl in Hp. apply orb_false_iff in Hp. destruct Hp as [Hd Hp].
      rewrite Hd. auto.
Qed.

Lemma relayThenUpgrade_cons c cs :
  relayThenUpgrade cs = true -> relayThenUpgrade (c :: cs) = true.
Proof.
  destruct cs as [|d rest]; simpl; [discriminate|].
  intros H. simpl in H. rewrite H. apply orb_true_r.
Qed.

Lemma upgradeNext_adjacent cs :
  forall c, ma.isCircuit c = true -> upgradeNext cs = true ->
            relayThenUpgrade (c :: cs) = true.
Proof.
  induction cs as [|d rest IH]; intros c Hc H; simpl in H; [discriminate|].
  change (relayThenUpgrade (c :: d :: rest))
    with ((ma.isCircuit c && ma.isWebRTC d) || relayThenUpgrade (d :: rest)).
  destruct (ma.isCircuit d) eqn:Hd.
  - rewrite (IH d Hd H). apply orb_true_r.
  - rewrite Hc, H. reflexivity.
Qed.

Lemma dialShape_adjacent cs : dialShape cs = true -> relayThenUpgrade cs = true.
Proof.
  induction cs as [|c rest IH]; [discriminate|].
  intros H. cbn [dialShape] in H.
  destruct (ma.isCircuit c) eqn:Hc.
  - apply upgradeNext_adjacent; assumption.
  - apply relayThenUpgrade_cons. auto.
Qed.

End CanDialFacts.

(** C3, as stated, fails: the address above has a relay component
    immediately followed by the direct-upgrade component, and CanDial
    answers false, because the component after the first relay component
    is /p2p. *)
Lemma CanDial_iff_adjacent_fails :
  relayThenUpgrade (ma.components twoHopAddr) = true /\
  CanDial sampleTransport twoHopAddr = false /\
  ~ CanDial_iff_adjacent sampleTransport twoHopAddr.
Proof.
  split; [reflexivity|]. split; [reflexivity|].
  intros [_ H]. specialize (H eq_refl). discriminate H.
Qed.

(** C3 (amended): CanDial(addr) is true if and only if the first component
    after addr's first p2p-circuit component that is not itself p2p-circuit
    exists and is webrtc.  Hence it is true only for addresses that contain
    a relay component immediately followed by the direct-upgrade component,
    and false for every address without such a pair.  The answer depends
    on the address alone: CanDial returns nothing but the boolean and reads
    nothing of the transport. *)
Theorem CanDial_first_relay_then_upgrade :
  forall (t : transport) (addr : ma.Multiaddr),
    (CanDial t addr = true <->
     exists pre c mid w post,
       ma.components addr = pre ++ c :: mid ++ w :: post /\
       existsb ma.isCircuit pre = false /\
       ma.isCircuit c = true /\
       forallb ma.isCircuit mid = true /\
       ma.isWebRTC w = true) /\
    (CanDial t addr = true -> relayThenUpgrade (ma.components addr) = true) /\
    (relayThenUpgrade (ma.components addr) = false -> CanDial t addr = false) /\
    (forall t', CanDial t' addr = CanDial t addr).
Proof.
  intros t addr. rewrite CanDial_dialShape.
  split; [apply dialShape_true|].
  split; [apply dialShape_adjacent|].
  split.
  - intros H. destruct (dialShape (ma.components addr)) eqn:E; [|reflexivity].
    apply dialShape_adjacent in E. congruence.
  - intros t'. apply CanDial_dialShape.
Qed.

(** ** getRelayAddr *)

Section GetRelayAddrFacts.

Variable cb : ma.Component -> bool.

Lemma splitOffset_app pre w post :
  existsb cb pre = false -> cb w = true ->
  ma.splitOffset (pre ++ w :: post) cb = List.length pre.
Proof.
  intros Hpre Hw. induction pre as [|c pre IH]; simpl.
  - rewrite Hw. reflexivity.
  - simpl in Hpre. apply orb_false_iff in Hpre. destruct Hpre as [Hc Hpre].
    rewrite Hc. f_equal. auto.
Qed.

Lemma splitOffset_none cs :
  existsb cb cs = false -> ma.splitOffset cs cb = List.length cs.
Proof.
  induction cs as [|c cs IH]; simpl; [reflexivity|].
  intros H. apply orb_false_iff in H. destruct H as [Hc H].
  rewrite Hc. f_equal. auto.
Qed.

(** [SplitFunc] where the callback first holds past the first component. *)
Lemma SplitFunc_inside p pre w post :
  existsb cb (p :: pre) = false -> cb w = true ->
  ma.SplitFunc (ma.MaBytes ((p :: pre) ++ w :: post)) cb
  = (Some (ma.MaBytes (p :: pre)), Some (ma.MaBytes (w :: post))).
Proof.
  intros Hpre Hw. unfold ma.SplitFunc.
  change ((p :: pre) ++ w :: post) with (p :: (pre ++ w :: post)).
  cbv zeta.
  change (p :: (pre ++ w :: post)) with ((p :: pre) ++ w :: post).
  rewrite (splitOffset_app _ _ Hpre Hw).
  replace (Nat.eqb (List.length (p :: pre)) 0) with false by reflexivity.
  replace (Nat.eqb (List.length (p :: pre)) (List.length ((p :: pre) ++ w :: post)))
    with false.
  - rewrite firstn_app, skipn_app, Nat.sub_diag, firstn_all, skipn_all.
    rewrite firstn_O, skipn_O, app_nil_r. reflexivity.
  - symmetry. apply Nat.eqb_neq. rewrite length_app. simpl. lia.
Qed.

(** [SplitFunc] where the callback never holds. *)
Lemma SplitFunc_nowhere c cs :
  existsb cb (c :: cs) = false ->
  ma.SplitFunc (ma.MaBytes (c :: cs)) cb = (Some (ma.MaBytes (c :: cs)), None).
Proof.
  intros H. unfold ma.SplitFunc. cbv zeta.
  rewrite (splitOffset_none _ H), Nat.eqb_refl. reflexivity.
Qed.

End GetRelayAddrFacts.

(** Where the first /webrtc has something before it, [getRelayAddr] cuts
    it out. *)
Lemma getRelayAddr_inside p pre w post :
  hasWebRTC (p :: pre) = false -> ma.isWebRTC w = true ->
  getRelayAddr (ma.MaBytes ((p :: pre) ++ w :: post))
  = Ret (Some (ma.MaBytes ((p :: pre) ++ post))).
Proof.
  intros Hpre Hw. unfold getRelayAddr.
  rewrite (@SplitFunc_inside ma.isWebRTC p pre w post Hpre Hw).
  destruct post as [|q post]; simpl.
  - rewrite app_nil_r. reflexivity.
  - reflexivity.
Qed.

(** Without any /webrtc, [SplitFirst] is called on the nil interface. *)
Lemma getRelayAddr_without_marker a :
  hasWebRTC (ma.components a) = false -> getRelayAddr a = Panic.
Proof.
  intros H. destruct a as [c | [|c cs]]; [|reflexivity|].
  - unfold getRelayAddr, ma.SplitFunc. simpl in H.
    apply orb_false_iff in H. destruct H as [Hc _]. fold (ma.isWebRTC c) in Hc.
    rewrite Hc. reflexivity.
  - unfold getRelayAddr. simpl in H.
    rewrite (@SplitFunc_nowhere ma.isWebRTC c cs H). reflexivity.
Qed.

(** The marker alone, held as a [*Component], is the second half of the
    split as it is: nothing is left of the address, and the nil interface
    comes back. *)
Lemma getRelayAddr_lone_marker :
  getRelayAddr (ma.MaComponent ma.webrtcComponent) = Ret None.
Proof. reflexivity. Qed.

(** C9, as stated, fails where the first /webrtc is the first component
    and another follows: nothing is returned ([first] is the nil interface
    when [Encapsulate] is called on it). *)
Lemma getRelayAddr_removes_first_fails :
  getRelayAddr markerFirstAddr = Panic /\
  ~ getRelayAddr_removes_first markerFirstAddr.
Proof.
  split; [reflexivity|].
  intros [_ H].
  destruct (H [] ma.webrtcComponent [p2p "P"] eq_refl eq_refl eq_refl) as (r & Hr & _).
  discriminate Hr.
Qed.

Lemma getRelayAddr_cuts_marker a pre w post :
  ma.components a = pre ++ w :: post ->
  pre <> [] ->
  hasWebRTC pre = false ->
  ma.isWebRTC w = true ->
  getRelayAddr a = Ret (Some (ma.MaBytes (pre ++ post))).
Proof.
  intros Ha Hne Hpre Hw.
  destruct pre as [|p pre]; [congruence|].
  destruct a as [c | cs]; simpl in Ha.
  - destruct pre; discriminate Ha.
  - subst cs. apply getRelayAddr_inside; assumption.
Qed.

(** C9 (amended): for every multiaddr whose first /webrtc component has
    at least one component before it, getRelayAddr returns the address
    with exactly that component removed, the components before and after
    it kept in their order. *)
Theorem getRelayAddr_removes_first_inside :
  forall (a : ma.Multiaddr) (pre : list ma.Component) (w : ma.Component)
         (post : list ma.Component),
    ma.components a = pre ++ w :: post ->
    pre <> [] ->
    hasWebRTC pre = false ->
    ma.isWebRTC w = true ->
    getRelayAddr a = Ret (Some (ma.MaBytes (pre ++ post))).
Proof.
  intros a pre w post. apply getRelayAddr_cuts_marker.
Qed.

Lemma getRelayAddr_removes_first_inside_witness :
  getRelayAddr (ma.MaBytes [p2p "R"; ma.circuitComponent; ma.webrtcComponent; p2p "P"])
  = Ret (Some (ma.MaBytes ([p2p "R"; ma.circuitComponent] ++ [p2p "P"]))).
Proof.
  apply (@getRelayAddr_removes_first_inside
           (ma.MaBytes [p2p "R"; ma.circuitComponent; ma.webrtcComponent; p2p "P"])
           [p2p "R"; ma.circuitComponent] ma.webrtcComponent [p2p "P"]).
  - reflexivity.
  - discriminate.
  - reflexivity.
  - reflexivity.
Defined.

(** ** Round trip through getRelayAddr *)

(** [CanDial] accepts more than the negotiated addresses: segments may
    follow the marker, and what is left without the last marker may hold a
    marker of its own.  For such addresses the relay address with /webrtc
    appended is another address, one that can no longer be dialed (the
    component after its p2p-circuit is /p2p). *)
Lemma roundTrip_beyond_negotiated :
  CanDial sampleTransport peerAfterMarkerAddr = true /\
  ~ roundTrip_of_dialable sampleTransport peerAfterMarkerAddr /\
  CanDial sampleTransport twoMarkerAddr = true /\
  ~ roundTrip_of_dialable sampleTransport twoMarkerAddr.
Proof.
  split; [reflexivity|]. split; [|split; [reflexivity|]].
  - intros H. destruct (H eq_refl) as (r & a' & Hr & Ha' & Hc & _).
    vm_compute in Hr. injection Hr as <-.
    vm_compute in Ha'. injection Ha' as <-.
    vm_compute in Hc. discriminate Hc.
  - intros H. destruct (H eq_refl) as (r & a' & Hr & Ha' & Hc & _).
    vm_compute in Hr. injection Hr as <-.
    vm_compute in Ha'. injection Ha' as <-.
    vm_compute in Hc. discriminate Hc.
Qed.

Lemma webrtc_marker w :
  ma.isWebRTC w = true -> ma.Value w = "" -> w = ma.webrtcComponent.
Proof.
  destruct w as [code v]. unfold ma.isWebRTC. simpl.
  intros Hc Hv. apply Z.eqb_eq in Hc. subst. reflexivity.
Qed.

(** C4: for every negotiated multiaddr a (dialable, the /webrtc marker
    its last segment, what is left without it a relay address with no
    marker), getRelayAddr(a) is a without that segment, and encapsulating
    it with the /webrtc marker gives a again, component for component: the
    very address, hence one that can be dialed as a can and that leads to
    the same relay address. *)
Theorem getRelayAddr_roundTrip :
  forall (t : transport) (a : ma.Multiaddr) (relay : list ma.Component)
         (w : ma.Component),
    CanDial t a = true ->
    ma.components a = relay ++ [w] ->
    hasWebRTC relay = false ->
    ma.isWebRTC w = true ->
    ma.Value w = "" ->
    getRelayAddr a = Ret (Some (ma.MaBytes relay)) /\
    ma.Encapsulate (Some (ma.MaBytes relay)) (Some WebRTCAddr) = Ret a /\
    roundTrip_of_dialable t a.
Proof.
  intros t a relay w Hdial Ha Hrelay Hw Hv.
  assert (Hne : relay <> []).
  { intros ->. rewrite CanDial_dialShape, Ha in Hdial. simpl in Hdial.
    rewrite (webrtc_not_circuit _ Hw) in Hdial. discriminate Hdial. }
  assert (Hrelay' : getRelayAddr a = Ret (Some (ma.MaBytes relay))).
  { rewrite (@getRelayAddr_cuts_marker a relay w [] Ha Hne Hrelay Hw).
    rewrite app_nil_r. reflexivity. }
  assert (Hback : ma.Encapsulate (Some (ma.MaBytes relay)) (Some WebRTCAddr) = Ret a).
  { destruct a as [c | cs]; simpl in Ha.
    - destruct relay as [|? [|? ?]]; try discriminate Ha. congruence.
    - subst cs. rewrite (webrtc_marker _ Hw Hv). reflexivity. }
  split; [exact Hrelay'|]. split; [exact Hback|].
  intros _. exists (Some (ma.MaBytes relay)), a. auto.
Qed.

Lemma getRelayAddr_roundTrip_witness :
  getRelayAddr (ma.MaBytes [p2p "R"; ma.circuitComponent; ma.webrtcComponent])
  = Ret (Some (ma.MaBytes [p2p "R"; ma.circuitComponent])) /\
  ma.Encapsulate (Some (ma.MaBytes [p2p "R"; ma.circuitComponent])) (Some WebRTCAddr)
  = Ret (ma.MaBytes [p2p "R"; ma.circuitComponent; ma.webrtcComponent]) /\
  roundTrip_of_dialable sampleTransport
    (ma.MaBytes [p2p "R"; ma.circuitComponent; ma.webrtcComponent]).
Proof.
  apply (@getRelayAddr_roundTrip sampleTransport
           (ma.MaBytes [p2p "R"; ma.circuitComponent; ma.webrtcComponent])
           [p2p "R"; ma.circuitComponent] ma.webrtcComponent);
    reflexivity.
Defined.

(** ** Listen *)

Lemma ValueForProtocol_webrtc laddr :
  match ma.ValueForProtocol laddr ma.P_WEBRTC with
  | OK _ => hasWebRTC (ma.components laddr) = true
  | Err _ => hasWebRTC (ma.components laddr) = false
  end.
Proof.
  unfold ma.ValueForProtocol, hasWebRTC.
  induction (ma.components laddr) as [|c cs IH]; simpl; [reflexivity|].
  fold (ma.isWebRTC c). destruct (ma.isWebRTC c); [reflexivity | exact IH].
Qed.

(** C8, as stated, fails: no listener is registered, the listen address
    /ip4/1.2.3.4/tcp/1 has no /webrtc component, and Listen returns an error
    and installs nothing. *)
Lemma Listen_installs_when_free_fails :
  Listen sampleTransport (ma.MaBytes [ip4 "1.2.3.4"; tcp "1"]) 1
  = (Err (errorString "invalid listen multiaddr"), sampleTransport) /\
  ~ Listen_installs_when_free sampleTransport (ma.MaBytes [ip4 "1.2.3.4"; tcp "1"]) 1.
Proof.
  split; [reflexivity|].
  intros [_ H]. destruct (H eq_refl) as (l & t' & Hl & _).
  discriminate Hl.
Qed.

(** C8 (amended): a transport holds at most one listener.  In every state
    in which a listener is registered, Listen returns an error and leaves
    the transport, its listener and the host's handlers as they are.  When
    no listener is registered and the listen address has a /webrtc
    component, Listen installs the new listener and sets it as handler of
    the signaling protocol.  When the listen address has no /webrtc
    component, Listen returns an error and changes nothing.  After a Listen
    that succeeded, every further Listen fails. *)
Theorem Listen_single_listener :
  forall (t : transport) (laddr : ma.Multiaddr) (ptr : nat),
    (forall l, listener t = Some l -> exists e, Listen t laddr ptr = (Err e, t)) /\
    (listener t = None -> hasWebRTC (ma.components laddr) = true ->
     exists l t',
       Listen t laddr ptr = (OK l, t') /\
       listenerID l = ptr /\
       listener t' = Some l /\
       handlers (host t') SignalingProtocol = Some l) /\
    (hasWebRTC (ma.components laddr) = false ->
     exists e, Listen t laddr ptr = (Err e, t)) /\
    (forall l t', Listen t laddr ptr = (OK l, t') ->
                  forall laddr' ptr', exists e, Listen t' laddr' ptr' = (Err e, t')).
Proof.
  intros t laddr ptr.
  assert (Hbusy : forall t0 laddr0 ptr0 l,
             listener t0 = Some l -> exists e, Listen t0 laddr0 ptr0 = (Err e, t0)).
  { intros t0 laddr0 ptr0 l Hl. unfold Listen.
    destruct (ma.ValueForProtocol laddr0 ma.P_WEBRTC); [rewrite Hl|]; eauto. }
  split; [intros l Hl; eapply Hbusy, Hl|].
  unfold Listen.
  pose proof (ValueForProtocol_webrtc laddr) as Hv.
  destruct (ma.ValueForProtocol laddr ma.P_WEBRTC) as [v | e0].
  - split; [|split].
    + intros Hnone _. rewrite Hnone.
      eexists. eexists. split; [reflexivity|]. simpl.
      split; [reflexivity|]. split; reflexivity.
    + intros Hno. congruence.
    + destruct (listener t) as [l0|]; intros l t' Hl; [discriminate Hl|].
      injection Hl as <- <-. intros laddr' ptr'.
      eapply Hbusy. reflexivity.
  - split; [|split].
    + intros _ Hyes. congruence.
    + intros _. eauto.
    + intros l t' Hl. discriminate Hl.
Qed.

(** ** The completion race *)

(** What a read leaves of the state: all of it, or all but the reader,
    gone with or without an error. *)
Lemma readerRead_state env r st :
  fst (readerRead env r st) = st \/
  exists e, fst (readerRead env r st) = readerReturn e st.
Proof.
  unfold readerRead.
  destruct r as [ | e | msg]; simpl; eauto.
  destruct (pb.typeIsNot msg pb.Message_ICE_CANDIDATE); simpl; eauto.
  destruct (pb.dataEmpty msg); simpl; eauto.
  destruct (envUnmarshal env _); simpl; eauto.
  destruct (envAddICECandidate env _); simpl; eauto.
Qed.

(** What a read leaves on the trace: the read, and the candidate it
    handed to the endpoint if it did. *)
Lemma readerRead_trace env r st :
  snd (readerRead env r st) = [EvReadMsg] \/
  exists init, snd (readerRead env r st) = [EvReadMsg; EvAddICECandidate init].
Proof.
  unfold readerRead.
  destruct r as [ | e | msg]; simpl; eauto.
  destruct (pb.typeIsNot msg pb.Message_ICE_CANDIDATE); simpl; eauto.
  destruct (pb.dataEmpty msg); simpl; eauto.
  destruct (envUnmarshal env _); simpl; eauto.
  destruct (envAddICECandidate env _); simpl; eauto.
Qed.

Lemma readerTest_state st :
  readerTest st = st \/ readerTest st = readerReturn None st.
Proof.
  unfold readerTest. destruct (readerRunning st); [|auto].
  destruct (ctxErr st); auto.
Qed.

Lemma readerTest_returned e st : readerTest (readerReturn e st) = readerReturn e st.
Proof. reflexivity. Qed.

Lemma readInFlight_returned env r st :
  readerRunning st = false -> readInFlight env r st = (st, []).
Proof. intros H. unfold readInFlight. rewrite H. reflexivity. Qed.

Lemma readInFlight_running env r st :
  readerRunning st = true ->
  readInFlight env r st
  = (readerTest (fst (readerRead env r st)), snd (readerRead env r st)).
Proof.
  intros H. unfold readInFlight. rewrite H. cbn [negb].
  destruct (readerRead env r st). reflexivity.
Qed.

Lemma readInFlight_state env r st :
  fst (readInFlight env r st) = st \/
  exists e, fst (readInFlight env r st) = readerReturn e st.
Proof.
  destruct (readerRunning st) eqn:Hrun.
  - rewrite (readInFlight_running env r st Hrun). cbn [fst].
    destruct (readerRead_state env r st) as [-> | [e ->]].
    + destruct (readerTest_state st) as [-> | ->]; eauto.
    + rewrite readerTest_returned. eauto.
  - rewrite (readInFlight_returned env r st Hrun). auto.
Qed.

Lemma readInFlight_trace env r st :
  snd (readInFlight env r st) = [] \/
  snd (readInFlight env r st) = [EvReadMsg] \/
  exists init, snd (readInFlight env r st) = [EvReadMsg; EvAddICECandidate init].
Proof.
  destruct (readerRunning st) eqn:Hrun.
  - rewrite (readInFlight_running env r st Hrun). cbn [snd].
    right. apply readerRead_trace.
  - rewrite (readInFlight_returned env r st Hrun). auto.
Qed.

(** While the context is alive it makes no difference when the reader
    made its test: the read in flight is a pass like any other. *)
Lemma readInFlight_alive env r st :
  ctxErr st = None ->
  raceStep env (ReadInFlight r) st = raceStep env (ReaderPass r) st.
Proof.
  intros Hctx. simpl. unfold readInFlight, readerPass.
  destruct (readerRunning st) eqn:Hrun; simpl; [|reflexivity].
  rewrite Hctx.
  pose proof (readerRead_state env r st) as Hst.
  destruct (readerRead env r st) as [st1 out]. simpl in Hst.
  f_equal. destruct Hst as [-> | [e ->]].
  - unfold readerTest. rewrite Hrun, Hctx. reflexivity.
  - reflexivity.
Qed.

Lemma onConnectionStateChange_terminal s st :
  holdsTerminal st -> holdsTerminal (onConnectionStateChange s st).
Proof.
  intros H s'. destruct s; simpl; try apply H;
    destruct (connectionState st) eqn:E; simpl; intros Heq;
    try (injection Heq as <-; reflexivity);
    apply H; congruence.
Qed.

Lemma raceStep_connectionState env ev st :
  holdsTerminal st -> holdsTerminal (fst (raceStep env ev st)).
Proof.
  intros H. destruct ev as [s | c | r | e | r]; simpl.
  - apply onConnectionStateChange_terminal, H.
  - unfold onICECandidate.
    destruct c as [c|]; [|exact H].
    destruct (candJSON c); [destruct (candWrite c)|]; exact H.
  - unfold readerPass, readerRead.
    destruct (readerRunning st); [|exact H]. simpl.
    destruct (ctxErr st); [exact H|].
    destruct r as [ | e | msg]; try exact H.
    destruct (pb.typeIsNot msg pb.Message_ICE_CANDIDATE); [exact H|].
    destruct (pb.dataEmpty msg); [exact H|].
    destruct (envUnmarshal env _); [|exact H].
    destruct (envAddICECandidate env _); exact H.
  - exact H.
  - destruct (readInFlight_state env r st) as [-> | [e ->]]; exact H.
Qed.

Lemma raceRun_connectionState env evs :
  forall st, holdsTerminal st -> holdsTerminal (fst (raceRun env evs st)).
Proof.
  induction evs as [|ev rest IH]; intros st H; simpl; [exact H|].
  pose proof (raceStep_connectionState env ev H) as H1.
  destruct (raceStep env ev st) as [st1 out1]. simpl in H1.
  specialize (IH st1 H1).
  destruct (raceRun env rest st1) as [st2 out2]. exact IH.
Qed.

Lemma nth_In_or_default {A} (l : list A) n d : nth n l d = d \/ In (nth n l d) l.
Proof.
  destruct (Nat.lt_ge_cases n (List.length l)) as [Hlt | Hge].
  - right. apply nth_In. exact Hlt.
  - left. apply nth_overflow. exact Hge.
Qed.

Lemma selectSignal_ready pick st :
  selectSignal pick st = SigDone DeadlineExceeded \/
  In (selectSignal pick st) (readySignals st).
Proof. apply nth_In_or_default. Qed.

Lemma selectSignal_state pick st s :
  selectSignal pick st = SigState s -> connectionState st = Some s.
Proof.
  intros H. destruct (selectSignal_ready pick st) as [Hd | Hin].
  - congruence.
  - rewrite H in Hin. unfold readySignals in Hin.
    repeat (apply in_app_or in Hin; destruct Hin as [Hin | Hin]);
      match type of Hin with
      | In _ (optList _ ?o) => destruct o; simpl in Hin
      end;
      try contradiction; destruct Hin as [Hin | []]; congruence.
Qed.

(** C10: on the connection-state channel only connected, failed or closed
    is ever sent.  The callback leaves the race untouched for every other
    state (new, connecting, disconnected, unknown), so such a state never
    wakes the select; after any sequence of events the channel is empty or
    holds one of the three; and when the select receives an endpoint state,
    it is one of the three. *)
Theorem connectionState_only_terminal :
  forall (env : Env) (evs : list RaceEvent),
    (forall s st, terminalState s = false ->
                  raceStep env (ConnectionStateChange s) st = (st, [])) /\
    (forall s, connectionState (fst (raceRun env evs raceInit)) = Some s ->
               s = PeerConnectionStateConnected \/
               s = PeerConnectionStateFailed \/
               s = PeerConnectionStateClosed) /\
    (forall pick s,
        selectSignal pick (fst (raceRun env evs raceInit)) = SigState s ->
        s = PeerConnectionStateConnected \/
        s = PeerConnectionStateFailed \/
        s = PeerConnectionStateClosed).
Proof.
  intros env evs.
  assert (Hinv : holdsTerminal (fst (raceRun env evs raceInit))).
  { apply raceRun_connectionState. intros s Hs. discriminate Hs. }
  assert (Hterm : forall s, terminalState s = true ->
                            s = PeerConnectionStateConnected \/
                            s = PeerConnectionStateFailed \/
                            s = PeerConnectionStateClosed).
  { intros s. destruct s; simpl; intros Hs; try discriminate Hs; auto. }
  split; [|split].
  - intros s st Hs. destruct s; simpl in *; try discriminate Hs; reflexivity.
  - intros s Hs. apply Hterm, Hinv, Hs.
  - intros pick s Hs. apply Hterm, Hinv. eapply selectSignal_state, Hs.
Qed.

(** ** Candidate exchange *)

Lemma dataEmpty_cases m :
  pb.Data m = None \/ pb.Data m = Some "" -> pb.dataEmpty m = true.
Proof.
  unfold pb.dataEmpty. intros [-> | ->]; reflexivity.
Qed.

Lemma candidate_type m :
  pb.MsgType m = Some pb.Message_ICE_CANDIDATE ->
  pb.typeIsNot m pb.Message_ICE_CANDIDATE = false.
Proof.
  unfold pb.typeIsNot. intros ->. reflexivity.
Qed.

(** C6: a message of type Candidate whose payload is missing or the empty
    string, received by the reader in its loop, changes nothing: no
    add-candidate call (the read is the only call made), nothing on the
    error channel, every channel as before, and the reader goes on, so
    that what follows runs as if the message had not come. *)
Theorem empty_candidate_ignored :
  forall (env : Env) (st : Race) (m : pb.Message) (rest : list RaceEvent),
    readerRunning st = true ->
    ctxErr st = None ->
    pb.MsgType m = Some pb.Message_ICE_CANDIDATE ->
    pb.Data m = None \/ pb.Data m = Some "" ->
    raceStep env (ReaderPass (ReadMsg m)) st = (st, [EvReadMsg]) /\
    raceRun env (ReaderPass (ReadMsg m) :: rest) st
    = (fst (raceRun env rest st), EvReadMsg :: snd (raceRun env rest st)).
Proof.
  intros env st m rest Hrun Hctx Hty Hdata.
  assert (Hstep : raceStep env (ReaderPass (ReadMsg m)) st = (st, [EvReadMsg])).
  { simpl. unfold readerPass, readerRead.
    rewrite Hrun, Hctx, (candidate_type _ Hty), (dataEmpty_cases _ Hdata).
    reflexivity. }
  split; [exact Hstep|].
  cbn [raceRun]. rewrite Hstep.
  destruct (raceRun env rest st) as [st2 out2]. reflexivity.
Qed.

Lemma empty_candidate_ignored_witness :
  raceStep sampleEnv (ReaderPass (ReadMsg (candidateMsg (Some "")))) raceInit
  = (raceInit, [EvReadMsg]).
Proof.
  refine (proj1 (@empty_candidate_ignored sampleEnv raceInit
                   (candidateMsg (Some "")) []
                   eq_refl eq_refl eq_refl (or_intror eq_refl))).
Defined.

(** ** The answer *)

Ltac go_unfold :=
  unfold run, setupConnection, negotiate, applyAnswer, awaitConnection,
    check, checkR, call, callR, bind, defer, emit, emitAll, ret, panic,
    closeOnError.

Lemma answer_rejected msg :
  pb.MsgType msg <> Some pb.Message_SDP_ANSWER \/
  pb.Data msg = None \/ pb.Data msg = Some "" ->
  pb.typeIsNot msg pb.Message_SDP_ANSWER = true \/
  (pb.typeIsNot msg pb.Message_SDP_ANSWER = false /\ pb.dataEmpty msg = true).
Proof.
  intros H. destruct (pb.typeIsNot msg pb.Message_SDP_ANSWER) eqn:Hty; [auto|].
  right. split; [reflexivity|].
  destruct H as [H | H].
  - exfalso. apply H. unfold pb.typeIsNot in Hty.
    destruct (pb.MsgType msg) as [[]|]; simpl in Hty; congruence.
  - apply dataEmpty_cases, H.
Qed.

(** What [setupConnection] does when the message read after the offer is
    not an answer with a payload. *)
Lemma setupConnection_bad_answer t env scope raddr pc sdp msg tr0 :
  offerSent env pc sdp ->
  envReadAnswer env = OK msg ->
  pb.MsgType msg <> Some pb.Message_SDP_ANSWER \/
  pb.Data msg = None \/ pb.Data msg = Some "" ->
  setupConnection t env scope raddr tr0
  = (Ret (Err (answerError msg)),
     tr0 ++ offerTrace sdp ++ [EvDcClose; EvOnICECandidateOff; EvPcClose]).
Proof.
  intros (Hpc & Hdc & Hoffer & Hw & Hl) Hread Hbad.
  go_unfold. rewrite Hpc, Hdc, Hoffer, Hw, Hl, Hread.
  unfold answerError, offerTrace.
  destruct (answer_rejected _ Hbad) as [Hty | [Hty Hdata]].
  - rewrite Hty. go_unfold. repeat rewrite <- app_assoc. reflexivity.
  - rewrite Hty, Hdata. go_unfold. repeat rewrite <- app_assoc. reflexivity.
Qed.

(** C1: when the first message read after the offer is not of type
    Answer, has no type, or has a missing or empty payload,
    setupConnection returns an error and no connection (closing the
    endpoint and its data channel), and the dialer calls Reset on the
    signaling stream: Reset is the first call that ends the stream and is
    made once; the deferred Close only runs after it. *)
Theorem bad_answer_resets_stream :
  forall (t : transport) (env : Env) (ctx : Context) (p : string)
         (scope : ConnManagementScope) (raddr : ma.Multiaddr)
         (pc : PeerConnection) (sdp : string) (msg : pb.Message),
    streamReady env ->
    offerSent env pc sdp ->
    envReadAnswer env = OK msg ->
    pb.MsgType msg <> Some pb.Message_SDP_ANSWER \/
    pb.Data msg = None \/ pb.Data msg = Some "" ->
    run (setupConnection t env scope raddr)
    = (Ret (Err (answerError msg)),
       offerTrace sdp ++ [EvDcClose; EvOnICECandidateOff; EvPcClose]) /\
    let tr := streamTrace env ctx p ++ offerTrace sdp
              ++ [EvDcClose; EvOnICECandidateOff; EvPcClose]
              ++ [EvStreamReset; EvStreamClose; EvReleaseMemory maxMsgSize] in
    run (dialWithScope t env ctx p scope raddr)
    = (Ret (Err (wrapError "error establishing webrtc.PeerConnection" (answerError msg))),
       tr) /\
    firstStreamEnd tr = Some EvStreamReset /\
    count isStreamReset tr = 1.
Proof.
  intros t env ctx p scope raddr pc sdp msg (Hs & Hsvc & Hmem) Hoffer Hread Hbad.
  split.
  - unfold run. rewrite (setupConnection_bad_answer t scope raddr [] Hoffer Hread Hbad).
    reflexivity.
  - cbv zeta. split; [|split; reflexivity].
    unfold run, dialWithScope, check, call, bind, defer, emit, ret.
    rewrite Hs, Hsvc, Hmem.
    rewrite (setupConnection_bad_answer t scope raddr _ Hoffer Hread Hbad).
    reflexivity.
Qed.

Lemma bad_answer_resets_stream_witness :
  firstStreamEnd
    (snd (run (dialWithScope sampleTransport
                 (envWith None (OK (candidateMsg (Some "{remote}"))) [])
                 sampleCtx "QmPeer" sampleScope sampleAddr)))
  = Some EvStreamReset.
Proof.
  destruct (@bad_answer_resets_stream sampleTransport
              (envWith None (OK (candidateMsg (Some "{remote}"))) [])
              sampleCtx "QmPeer" sampleScope sampleAddr samplePC "v=0 offer"
              (candidateMsg (Some "{remote}")))
    as (_ & Hdial & Hfirst & _).
  - repeat split.
  - repeat split.
  - reflexivity.
  - left. discriminate.
  - rewrite Hdial. exact Hfirst.
Defined.

(** ** The deadline *)

Lemma selectSignal_deadline pick st :
  connectionState st = None -> readErr st = None -> writeErr st = None ->
  ctxErr st = None \/ ctxErr st = Some DeadlineExceeded ->
  selectSignal pick st = SigDone DeadlineExceeded.
Proof.
  intros Hc Hr Hw Hd. unfold selectSignal, readySignals.
  rewrite Hc, Hr, Hw. destruct Hd as [-> | ->].
  - simpl. destruct pick; reflexivity.
  - cbn [optList app List.length]. rewrite Nat.mod_1_r. reflexivity.
Qed.

(** [setupConnection] from the answer on, when the select wakes on the
    deadline. *)
Lemma setupConnection_deadline t env scope raddr pc sdp answer tr0 :
  offerSent env pc sdp ->
  answerApplied env answer ->
  selectSignal (envPick env) (raceAtSelect env) = SigDone DeadlineExceeded ->
  setupConnection t env scope raddr tr0
  = (Ret (Err DeadlineExceeded),
     tr0 ++ offerTrace sdp ++ [EvSetRemoteDescription answer]
     ++ snd (raceRun env (envSchedule env) raceInit)
     ++ [EvPcClose; EvCancel; EvDcClose; EvOnICECandidateOff; EvPcClose]).
Proof.
  intros (Hpc & Hdc & Hoffer & Hw & Hl) (Hread & Hne & Hremote) Hsel.
  unfold raceAtSelect in Hsel.
  go_unfold. rewrite Hpc, Hdc, Hoffer, Hw, Hl, Hread.
  unfold pb.typeIsNot, pb.dataEmpty. simpl.
  apply String.eqb_neq in Hne. rewrite Hne, Hremote.
  destruct (raceRun env (envSchedule env) raceInit) as [st out].
  simpl in Hsel. rewrite Hsel. go_unfold. unfold offerTrace. simpl.
  repeat rewrite <- app_assoc. reflexivity.
Qed.

(** C5: when the negotiation deadline elapses with the endpoint not yet
    connected (nothing on the connection-state channel) and no read or
    write error signalled, setupConnection closes the PeerConnection and
    returns the deadline error. *)
Theorem deadline_closes_endpoint :
  forall (t : transport) (env : Env) (scope : ConnManagementScope)
         (raddr : ma.Multiaddr) (pc : PeerConnection) (sdp answer : string),
    offerSent env pc sdp ->
    answerApplied env answer ->
    connectionState (raceAtSelect env) = None ->
    readErr (raceAtSelect env) = None ->
    writeErr (raceAtSelect env) = None ->
    ctxErr (raceAtSelect env) = None \/ ctxErr (raceAtSelect env) = Some DeadlineExceeded ->
    exists tr,
      run (setupConnection t env scope raddr) = (Ret (Err DeadlineExceeded), tr) /\
      In EvPcClose tr /\
      tr = offerTrace sdp ++ [EvSetRemoteDescription answer]
           ++ snd (raceRun env (envSchedule env) raceInit)
           ++ [EvPcClose; EvCancel; EvDcClose; EvOnICECandidateOff; EvPcClose].
Proof.
  intros t env scope raddr pc sdp answer Hoffer Hanswer Hc Hr Hw Hd.
  eexists. split; [|split; [|reflexivity]].
  - unfold run.
    rewrite (setupConnection_deadline t scope raddr [] Hoffer Hanswer
               (selectSignal_deadline (envPick env) _ Hc Hr Hw Hd)).
    reflexivity.
  - apply in_or_app. right. apply in_or_app. right.
    apply in_or_app. right. left. reflexivity.
Qed.

Lemma deadline_closes_endpoint_witness :
  exists tr,
    run (setupConnection sampleTransport
           (envWith None (OK (answerMsg "v=0 answer")) stalledSchedule)
           sampleScope sampleAddr)
    = (Ret (Err DeadlineExceeded), tr) /\
    In EvPcClose tr.
Proof.
  destruct (@deadline_closes_endpoint sampleTransport
              (envWith None (OK (answerMsg "v=0 answer")) stalledSchedule)
              sampleScope sampleAddr samplePC "v=0 offer" "v=0 answer")
    as (tr & Hrun & Hin & _).
  - repeat split.
  - repeat split. discriminate.
  - reflexivity.
  - reflexivity.
  - reflexivity.
  - right. reflexivity.
  - exists tr. split; assumption.
Defined.

(** ** Which calls a function can make *)

Section AppendsOnly.

Variable P : event -> Prop.

Lemma appendsOnly_ret {A} (a : A) : appendsOnly P (ret a).
Proof. intros tr. exists []. rewrite app_nil_r. auto. Qed.

Lemma appendsOnly_panic {A} : appendsOnly P (@panic A).
Proof. intros tr. exists []. rewrite app_nil_r. auto. Qed.

Lemma appendsOnly_liftOutcome {A} (o : outcome A) : appendsOnly P (liftOutcome o).
Proof. intros tr. exists []. rewrite app_nil_r. auto. Qed.

Lemma appendsOnly_emitAll es : Forall P es -> appendsOnly P (emitAll es).
Proof. intros H tr. exists es. auto. Qed.

Lemma appendsOnly_emit e : P e -> appendsOnly P (emit e).
Proof. intros H tr. exists [e]. auto. Qed.

Lemma appendsOnly_bind {A B} (m : M A) (k : A -> M B) :
  appendsOnly P m -> (forall a, appendsOnly P (k a)) -> appendsOnly P (bind m k).
Proof.
  intros Hm Hk tr. unfold bind.
  destruct (Hm tr) as (out1 & E1 & F1).
  destruct (m tr) as [[a|] tr1]; simpl in E1; subst tr1.
  - destruct (Hk a (tr ++ out1)) as (out2 & E2 & F2).
    exists (out1 ++ out2). rewrite E2, app_assoc. split; [reflexivity|].
    apply Forall_app. auto.
  - exists out1. auto.
Qed.

Lemma appendsOnly_defer {A} (d : outcome A -> M unit) (body : M A) :
  appendsOnly P body -> (forall r, appendsOnly P (d r)) -> appendsOnly P (defer d body).
Proof.
  intros Hb Hd tr. unfold defer.
  destruct (Hb tr) as (out1 & E1 & F1).
  destruct (body tr) as [r tr1]; simpl in E1; subst tr1.
  destruct (Hd r (tr ++ out1)) as (out2 & E2 & F2).
  exists (out1 ++ out2).
  destruct (d r (tr ++ out1)) as [[u|] tr2]; simpl in E2; subst tr2; simpl;
    rewrite app_assoc; (split; [reflexivity | apply Forall_app; auto]).
Qed.

Lemma appendsOnly_call e answer : P e -> appendsOnly P (call e answer).
Proof.
  intros H. apply appendsOnly_bind; [apply appendsOnly_emit, H|].
  intros _. apply appendsOnly_ret.
Qed.

Lemma appendsOnly_callR {A} e (answer : result A) : P e -> appendsOnly P (callR e answer).
Proof.
  intros H. apply appendsOnly_bind; [apply appendsOnly_emit, H|].
  intros _. apply appendsOnly_ret.
Qed.

Lemma appendsOnly_check {B} msg m (k : M (result B)) :
  appendsOnly P m -> appendsOnly P k -> appendsOnly P (check msg m k).
Proof.
  intros Hm Hk. apply appendsOnly_bind; [exact Hm|].
  intros [e|]; [apply appendsOnly_ret | exact Hk].
Qed.

Lemma appendsOnly_checkR {A B} msg (m : M (result A)) (k : A -> M (result B)) :
  appendsOnly P m -> (forall a, appendsOnly P (k a)) -> appendsOnly P (checkR msg m k).
Proof.
  intros Hm Hk. apply appendsOnly_bind; [exact Hm|].
  intros [a|e]; [apply Hk | apply appendsOnly_ret].
Qed.

End AppendsOnly.

Lemma appendsOnly_impl {A} (P Q : event -> Prop) (m : M A) :
  (forall e, P e -> Q e) -> appendsOnly P m -> appendsOnly Q m.
Proof.
  intros HPQ Hm tr. destruct (Hm tr) as (out & E & F).
  exists out. split; [exact E|]. eapply Forall_impl; eauto.
Qed.

Lemma raceStep_session env ev st : Forall isSession (snd (raceStep env ev st)).
Proof.
  destruct ev as [s | c | r | e | r]; simpl; auto.
  - unfold onICECandidate. destruct c as [c|]; simpl; auto.
    destruct (candJSON c); simpl; auto.
    destruct (candWrite c); simpl; repeat constructor.
  - unfold readerPass, readerRead.
    destruct (readerRunning st); simpl; auto.
    destruct (ctxErr st); simpl; auto.
    destruct r as [ | e | msg]; simpl; repeat constructor.
    destruct (pb.typeIsNot msg pb.Message_ICE_CANDIDATE); simpl; repeat constructor.
    destruct (pb.dataEmpty msg); simpl; repeat constructor.
    destruct (envUnmarshal env _); simpl; repeat constructor.
    destruct (envAddICECandidate env _); simpl; repeat constructor.
  - destruct (readInFlight_trace env r st) as [-> | [-> | [init ->]]];
      repeat constructor.
Qed.

Lemma raceRun_session env evs : forall st, Forall isSession (snd (raceRun env evs st)).
Proof.
  induction evs as [|ev rest IH]; intros st; simpl; [constructor|].
  pose proof (raceStep_session env ev st) as H1.
  destruct (raceStep env ev st) as [st1 out1].
  specialize (IH st1). destruct (raceRun env rest st1) as [st2 out2].
  simpl in *. apply Forall_app. auto.
Qed.

Ltac session_step :=
  lazymatch goal with
  | |- appendsOnly _ (ret _) => apply appendsOnly_ret
  | |- appendsOnly _ panic => apply appendsOnly_panic
  | |- appendsOnly _ (emit _) => apply appendsOnly_emit; reflexivity
  | |- appendsOnly _ (call _ _) => apply appendsOnly_call; reflexivity
  | |- appendsOnly _ (callR _ _) => apply appendsOnly_callR; reflexivity
  | |- appendsOnly _ (check _ _ _) => apply appendsOnly_check
  | |- appendsOnly _ (checkR _ _ _) => apply appendsOnly_checkR; [|intros ?]
  | |- appendsOnly _ (defer _ _) => apply appendsOnly_defer; [|intros ?]
  | |- appendsOnly _ (bind _ _) => apply appendsOnly_bind; [|intros ?]
  end.

Lemma awaitConnection_session t env pc scope raddr :
  appendsOnly isSession (awaitConnection t env pc scope raddr).
Proof.
  unfold awaitConnection.
  pose proof (raceRun_session env (envSchedule env) raceInit) as Hout.
  destruct (raceRun env (envSchedule env) raceInit) as [st out]. simpl in Hout.
  apply appendsOnly_bind; [apply appendsOnly_emitAll, Hout|]. intros _.
  destruct (selectSignal (envPick env) st) as [e | e | e | s];
    try (repeat session_step).
  destruct s; try (repeat session_step).
  destruct (getLocalConnectionAddress env pc); repeat session_step.
  match goal with o : option error |- _ => destruct o end; repeat session_step.
Qed.

Lemma setupConnection_session t env scope raddr :
  appendsOnly isSession (setupConnection t env scope raddr).
Proof.
  unfold setupConnection.
  destruct (envNewPeerConnection env) as [pc | e].
  - apply appendsOnly_defer.
    + apply appendsOnly_bind; [apply appendsOnly_emit; reflexivity|]. intros _.
      unfold negotiate. repeat session_step.
      unfold applyAnswer.
      destruct (pb.typeIsNot _ _); [apply appendsOnly_ret|].
      destruct (pb.dataEmpty _); [apply appendsOnly_ret|].
      repeat session_step. apply awaitConnection_session.
    + intros [[c | e]|]; simpl; repeat session_step.
  - apply appendsOnly_defer.
    + repeat session_step.
    + intros [[c | e']|]; simpl; repeat session_step.
Qed.

(** ** Memory of the signaling stream *)

Lemma reservedMemory_app a b :
  reservedMemory (a ++ b) = (reservedMemory a + reservedMemory b)%Z.
Proof.
  induction a as [|e a IH]; simpl; [reflexivity|].
  rewrite IH. lia.
Qed.

Lemma reservedMemory_session out : Forall isSession out -> reservedMemory out = 0%Z.
Proof.
  induction 1 as [|e out He _ IH]; simpl; [reflexivity|].
  rewrite IH. destruct e; try discriminate He; reflexivity.
Qed.

Lemma reservedMemory_cons e tr :
  reservedMemory (e :: tr) = (memoryDelta e + reservedMemory tr)%Z.
Proof. reflexivity. Qed.

Ltac memory_sum F :=
  cbn [snd];
  repeat rewrite reservedMemory_app;
  repeat rewrite reservedMemory_cons;
  repeat rewrite reservedMemory_app;
  rewrite (reservedMemory_session F);
  reflexivity.

(** C7: the dialer reserves 2 * maxMsgSize on the stream's scope before
    setupConnection reads or writes a signaling message, but its deferred
    release gives back maxMsgSize only: whenever the reservation is
    granted, on every exit of dialWithScope (a connection, an error, or a
    panic of setupConnection) maxMsgSize bytes stay reserved. *)
Theorem dialWithScope_releases_half :
  forall (t : transport) (env : Env) (ctx : Context) (p : string)
         (scope : ConnManagementScope) (raddr : ma.Multiaddr),
    streamReady env ->
    (exists rest,
        snd (run (dialWithScope t env ctx p scope raddr))
        = [EvNewStream p SignalingProtocol; EvSetService name;
           EvReserveMemory (2 * maxMsgSize) true] ++ rest) /\
    reservedMemory (snd (run (dialWithScope t env ctx p scope raddr))) = maxMsgSize.
Proof.
  intros t env ctx p scope raddr (Hs & Hsvc & Hmem).
  unfold run, dialWithScope, check, call, bind, defer, emit, ret.
  rewrite Hs, Hsvc, Hmem.
  match goal with
  | |- context [setupConnection t env scope raddr ?tr] =>
      destruct (setupConnection_session t env scope raddr tr) as (out & E & F);
      destruct (setupConnection t env scope raddr tr) as [r tr1]
  end.
  simpl in E. subst tr1.
  destruct r as [[conn | e] | ].
  - destruct (gater t) as [intercept|].
    + destruct (intercept DirOutbound p conn).
      * split; [eexists; reflexivity | memory_sum F].
      * split; [eexists; reflexivity | memory_sum F].
    + split; [eexists; reflexivity | memory_sum F].
  - split; [eexists; reflexivity | memory_sum F].
  - split; [eexists; reflexivity | memory_sum F].
Qed.

Lemma dialWithScope_releases_half_witness :
  reservedMemory
    (snd (run (dialWithScope sampleTransport sampleEnv sampleCtx "QmPeer"
                 sampleScope sampleAddr)))
  = 4096%Z.
Proof.
  refine (proj2 (@dialWithScope_releases_half sampleTransport sampleEnv sampleCtx
                   "QmPeer" sampleScope sampleAddr _)).
  repeat split.
Defined.

(** ** The connection scope *)

Lemma count_app f a b : count f (a ++ b) = count f a + count f b.
Proof. unfold count. rewrite filter_app, length_app. reflexivity. Qed.

Lemma count_cons f e tr :
  count f (e :: tr) = (if f e then 1 else 0) + count f tr.
Proof. unfold count. simpl. destruct (f e); reflexivity. Qed.

Lemma count_none f out : Forall (fun e => f e = false) out -> count f out = 0.
Proof.
  unfold count. induction 1 as [|e out He _ IH]; simpl; [reflexivity|].
  rewrite He. exact IH.
Qed.

Section ReturnsOnly.

Context {A : Type} (Q : A -> Prop).

Lemma returnsOnly_ret a : Q a -> returnsOnly Q (ret a).
Proof. intros H tr. exact H. Qed.

Lemma returnsOnly_bind {B} (m : M B) (k : B -> M A) :
  (forall b, returnsOnly Q (k b)) -> returnsOnly Q (bind m k).
Proof.
  intros Hk tr. unfold bind. destruct (m tr) as [[b|] tr1]; simpl; [|exact I].
  apply Hk.
Qed.

Lemma returnsOnly_defer (d : outcome A -> M unit) (body : M A) :
  returnsOnly Q body -> returnsOnly Q (defer d body).
Proof.
  intros Hb tr. unfold defer. specialize (Hb tr).
  destruct (body tr) as [r tr1]. simpl in Hb.
  destruct (d r tr1) as [[u|] tr2]; simpl; [exact Hb | exact I].
Qed.

End ReturnsOnly.

Lemma returnsOnly_check scope raddr msg m (k : M (result CapableConn)) :
  returnsOnly (connOf scope raddr) k -> returnsOnly (connOf scope raddr) (check msg m k).
Proof.
  intros Hk. apply returnsOnly_bind. intros [e|]; [apply returnsOnly_ret; exact I | exact Hk].
Qed.

Lemma returnsOnly_checkR {B} scope raddr msg (m : M (result B))
      (k : B -> M (result CapableConn)) :
  (forall b, returnsOnly (connOf scope raddr) (k b)) ->
  returnsOnly (connOf scope raddr) (checkR msg m k).
Proof.
  intros Hk. apply returnsOnly_bind. intros [b|e]; [apply Hk | apply returnsOnly_ret; exact I].
Qed.

Ltac conn_step :=
  lazymatch goal with
  | |- returnsOnly _ (ret _) =>
      apply returnsOnly_ret; first [exact I | split; reflexivity]
  | |- returnsOnly _ (check _ _ _) => apply returnsOnly_check
  | |- returnsOnly _ (checkR _ _ _) => apply returnsOnly_checkR; intros ?
  | |- returnsOnly _ (defer _ _) => apply returnsOnly_defer
  | |- returnsOnly _ (bind _ _) => apply returnsOnly_bind; intros ?
  end.

Lemma setupConnection_conn t env scope raddr :
  returnsOnly (connOf scope raddr) (setupConnection t env scope raddr).
Proof.
  unfold setupConnection.
  destruct (envNewPeerConnection env) as [pc | e]; [|repeat conn_step].
  apply returnsOnly_defer. apply returnsOnly_bind. intros _.
  unfold negotiate. repeat conn_step.
  unfold applyAnswer.
  destruct (pb.typeIsNot _ _); [repeat conn_step|].
  destruct (pb.dataEmpty _); [repeat conn_step|].
  repeat conn_step.
  unfold awaitConnection.
  destruct (raceRun env (envSchedule env) raceInit) as [st out].
  apply returnsOnly_bind. intros _.
  destruct (selectSignal (envPick env) st) as [e | e | e | s]; try (repeat conn_step).
  destruct s; try (repeat conn_step).
  destruct (getLocalConnectionAddress env pc); repeat conn_step.
  match goal with o : option error |- _ => destruct o end; repeat conn_step.
Qed.

Lemma session_notScopeDone e : isSession e -> notScopeDone e.
Proof. destruct e; intros H; try discriminate H; reflexivity. Qed.

Ltac done_step :=
  lazymatch goal with
  | |- appendsOnly _ (ret _) => apply appendsOnly_ret
  | |- appendsOnly _ (emit _) => apply appendsOnly_emit; reflexivity
  | |- appendsOnly _ (call _ _) => apply appendsOnly_call; reflexivity
  | |- appendsOnly _ (check _ _ _) => apply appendsOnly_check
  | |- appendsOnly _ (defer _ _) => apply appendsOnly_defer; [|intros ?]
  | |- appendsOnly _ (bind _ _) => apply appendsOnly_bind; [|intros ?]
  end.

Lemma dialWithScope_notScopeDone t env ctx p scope raddr :
  appendsOnly notScopeDone (dialWithScope t env ctx p scope raddr).
Proof.
  unfold dialWithScope. repeat done_step.
  match goal with o : option error |- _ => destruct o end; [repeat done_step|].
  destruct (envReserveMemory env); repeat done_step.
  - eapply appendsOnly_impl; [apply session_notScopeDone | apply setupConnection_session].
  - match goal with r : result CapableConn |- _ => destruct r as [conn | e] end;
      [|repeat done_step].
    destruct (gater t) as [intercept|]; repeat done_step.
    destruct (intercept DirOutbound p conn); repeat done_step.
Qed.

Lemma dialWithScope_conn t env ctx p scope raddr :
  returnsOnly (connOf scope raddr) (dialWithScope t env ctx p scope raddr).
Proof.
  unfold dialWithScope. apply returnsOnly_check.
  apply returnsOnly_bind. intros [e|]; [repeat conn_step|].
  destruct (envReserveMemory env); [repeat conn_step|].
  apply returnsOnly_bind. intros _.
  apply returnsOnly_defer. apply returnsOnly_defer.
  apply returnsOnly_bind. intros _.
  intros tr. unfold bind.
  pose proof (setupConnection_conn t env scope raddr tr) as Hc.
  destruct (setupConnection t env scope raddr tr) as [[[conn | e]|] tr1];
    simpl in *; try exact I.
  destruct (gater t) as [intercept|]; [|exact Hc].
  unfold emit, ret. simpl.
  destruct (intercept DirOutbound p conn); simpl; [exact Hc | exact I].
Qed.

(** Once the peer is set on the scope, Dial releases the scope exactly
    once when it returns an error, and not at all when it returns the
    connection, which then holds the scope. *)
Lemma Dial_scope_after_SetPeer t env ctx raddr p relay scope :
  scopeOpened env raddr relay scope ->
  envSetPeer env = None ->
  match run (Dial t env ctx raddr p) with
  | (Ret (Err _), tr) => count isScopeDone tr = 1
  | (Ret (OK c), tr) => count isScopeDone tr = 0 /\ connScope c = scope
  | (Panic, tr) => count isScopeDone tr = 0
  end.
Proof.
  intros (Hrelay & Hconnect & Hopen) Hpeer.
  unfold run, Dial, check, call, liftOutcome.
  rewrite Hrelay. unfold bind at 1. unfold bind at 1. unfold bind at 1.
  unfold emit at 1, ret at 1. rewrite Hconnect.
  unfold bind at 1. unfold emit at 1. rewrite Hopen.
  unfold bind at 1. unfold bind at 1. unfold emit at 1, ret at 1. rewrite Hpeer.
  unfold bind.
  match goal with
  | |- context [dialWithScope t env ctx p scope raddr ?tr] =>
      destruct (dialWithScope_notScopeDone t env ctx p scope raddr tr) as (out & E & F);
      pose proof (dialWithScope_conn t env ctx p scope raddr tr) as Hc;
      destruct (dialWithScope t env ctx p scope raddr tr) as [r tr1]
  end.
  simpl in E, Hc. subst tr1.
  destruct r as [[c | e] | ]; unfold emit, ret; cbv beta iota.
  - split; [|apply Hc].
    rewrite ?count_app, ?count_cons, (count_none _ F). reflexivity.
  - rewrite ?count_app, ?count_cons, (count_none _ F). reflexivity.
  - rewrite ?count_app, ?count_cons, (count_none _ F). reflexivity.
Qed.

(** C2: Dial does not release the scope when tagging it with the peer
    fails.  With the relay connection made and the scope opened, a failing
    SetPeer makes Dial return that error after three calls, none of them
    Done: the scope opened for the dial is released zero times. *)
Theorem Dial_SetPeer_failure_keeps_scope :
  forall (t : transport) (env : Env) (ctx : Context) (raddr : ma.Multiaddr)
         (p : string) (relay : option ma.Multiaddr) (scope : ConnManagementScope)
         (e : error),
    scopeOpened env raddr relay scope ->
    envSetPeer env = Some e ->
    run (Dial t env ctx raddr p)
    = (Ret (Err e), [EvConnect p relay; EvOpenConnection raddr; EvScopeSetPeer p]) /\
    count isScopeDone (snd (run (Dial t env ctx raddr p))) = 0.
Proof.
  intros t env ctx raddr p relay scope e (Hrelay & Hconnect & Hopen) Hpeer.
  assert (Hrun : run (Dial t env ctx raddr p)
                 = (Ret (Err e), [EvConnect p relay; EvOpenConnection raddr; EvScopeSetPeer p])).
  { unfold run, Dial, check, call, liftOutcome, bind, emit, ret.
    rewrite Hrelay, Hconnect, Hopen, Hpeer. reflexivity. }
  split; [exact Hrun|]. rewrite Hrun. reflexivity.
Qed.

Lemma Dial_SetPeer_failure_keeps_scope_witness :
  count isScopeDone
    (snd (run (Dial sampleTransport
                 (envWith (Some resourceLimit) (OK (answerMsg "v=0 answer")) sampleSchedule)
                 sampleCtx sampleAddr "QmPeer")))
  = 0.
Proof.
  refine (proj2 (@Dial_SetPeer_failure_keeps_scope sampleTransport
                   (envWith (Some resourceLimit) (OK (answerMsg "v=0 answer")) sampleSchedule)
                   sampleCtx sampleAddr "QmPeer"
                   (Some (ma.MaBytes [ip4 "1.2.3.4"; tcp "1"; p2p "R"; ma.circuitComponent]))
                   sampleScope resourceLimit _ _)).
  - repeat split.
  - reflexivity.
Defined.

(* ================================================================= *)
(** * Further properties of the source *)

(** ** The race, event after event *)

Lemma raceRun_app env evs1 evs2 st :
  raceRun env (evs1 ++ evs2) st
  = (fst (raceRun env evs2 (fst (raceRun env evs1 st))),
     snd (raceRun env evs1 st) ++ snd (raceRun env evs2 (fst (raceRun env evs1 st)))).
Proof.
  revert st. induction evs1 as [|ev rest IH]; intros st; simpl.
  - destruct (raceRun env evs2 st). reflexivity.
  - destruct (raceStep env ev st) as [st1 out1]. rewrite IH.
    destruct (raceRun env rest st1) as [st2 out2]. simpl.
    rewrite app_assoc. reflexivity.
Qed.

Lemma trySend_keeps {A} (slot : option A) v w :
  slot = Some w -> trySend slot v = Some w.
Proof. intros ->. reflexivity. Qed.

Ltac settle :=
  unfold settled; simpl; repeat split; intros;
  first [ assumption | discriminate | congruence
        | apply trySend_keeps; assumption ].

Lemma raceStep_settled env ev st : settled st (fst (raceStep env ev st)).
Proof.
  destruct ev as [s | c | r | e | r]; simpl.
  - destruct s; settle.
  - unfold onICECandidate. destruct c as [c|]; [|settle].
    destruct (candJSON c); [destruct (candWrite c)|]; settle.
  - unfold readerPass, readerRead. destruct (readerRunning st) eqn:Hrun; [|settle].
    cbn [negb]. destruct (ctxErr st) eqn:Hctx; [settle|].
    destruct r as [ | e | msg]; [settle | settle |].
    destruct (pb.typeIsNot msg pb.Message_ICE_CANDIDATE); [settle|].
    destruct (pb.dataEmpty msg); [settle|].
    destruct (envUnmarshal env _); [|settle].
    destruct (envAddICECandidate env _); settle.
  - settle.
  - destruct (readerRunning st) eqn:Hrun.
    + destruct (readInFlight_state env r st) as [-> | [e' ->]]; settle.
    + rewrite (readInFlight_returned env r st Hrun). settle.
Qed.

Lemma raceStep_readerDone env ev st :
  readerDone st -> readerDone (fst (raceStep env ev st)).
Proof.
  unfold readerDone. destruct ev as [s | c | r | e | r]; simpl.
  - destruct s; simpl; auto.
  - unfold onICECandidate. destruct c as [c|]; [|auto].
    destruct (candJSON c); [destruct (candWrite c)|]; simpl; auto.
  - unfold readerPass, readerRead. destruct (readerRunning st) eqn:Hrun; simpl; [|auto].
    destruct (ctxErr st); [reflexivity|].
    destruct r as [ | e | msg]; try reflexivity.
    destruct (pb.typeIsNot msg pb.Message_ICE_CANDIDATE); [reflexivity|].
    destruct (pb.dataEmpty msg); [simpl; rewrite Hrun; auto|].
    destruct (envUnmarshal env _); [|reflexivity].
    destruct (envAddICECandidate env _); [reflexivity|].
    simpl. rewrite Hrun. auto.
  - auto.
  - destruct (readInFlight_state env r st) as [-> | [e' ->]]; [auto | reflexivity].
Qed.

Lemma settled_refl st : settled st st.
Proof. repeat split; auto. Qed.

Lemma settled_trans a b c : settled a b -> settled b c -> settled a c.
Proof.
  intros (H1 & H2 & H3 & H4) (K1 & K2 & K3 & K4).
  split; [auto|]. split; [auto|]. split; [auto|].
  intros Ha. destruct (H4 Ha) as [Hb Hr]. destruct (K4 Hb) as [Hc Hr'].
  split; congruence.
Qed.

Lemma raceRun_settled env evs : forall st, settled st (fst (raceRun env evs st)).
Proof.
  induction evs as [|ev rest IH]; intros st; simpl; [apply settled_refl|].
  pose proof (raceStep_settled env ev st) as H1.
  destruct (raceStep env ev st) as [st1 out1]. simpl in H1.
  specialize (IH st1). destruct (raceRun env rest st1) as [st2 out2].
  simpl in *. eapply settled_trans; eauto.
Qed.

Lemma raceRun_readerDone env evs :
  forall st, readerDone st -> readerDone (fst (raceRun env evs st)).
Proof.
  induction evs as [|ev rest IH]; intros st H; simpl; [exact H|].
  pose proof (raceStep_readerDone env ev H) as H1.
  destruct (raceStep env ev st) as [st1 out1]. simpl in H1.
  specialize (IH st1 H1). destruct (raceRun env rest st1) as [st2 out2].
  exact IH.
Qed.

(** X1: the channels of the race are written once.  Whatever has
    happened so far and whatever happens next, a value that sits on the
    connection-state channel, on the write-error channel, on the
    read-error channel, or the error of the ended context, is still the
    one the select finds later: the first outcome of each kind wins. *)
Theorem race_first_value_wins :
  forall (env : Env) (before after : list RaceEvent),
    (forall s, connectionState (fst (raceRun env before raceInit)) = Some s ->
               connectionState (fst (raceRun env (before ++ after) raceInit)) = Some s) /\
    (forall e, writeErr (fst (raceRun env before raceInit)) = Some e ->
               writeErr (fst (raceRun env (before ++ after) raceInit)) = Some e) /\
    (forall e, readErr (fst (raceRun env before raceInit)) = Some e ->
               readErr (fst (raceRun env (before ++ after) raceInit)) = Some e) /\
    (forall e, ctxErr (fst (raceRun env before raceInit)) = Some e ->
               ctxErr (fst (raceRun env (before ++ after) raceInit)) = Some e).
Proof.
  intros env before after. rewrite raceRun_app. cbn [fst].
  assert (Hdone : readerDone (fst (raceRun env before raceInit))).
  { apply raceRun_readerDone. intros H. exfalso. apply H. reflexivity. }
  destruct (raceRun_settled env after (fst (raceRun env before raceInit)))
    as (H1 & H2 & H3 & H4).
  repeat split; auto.
  intros e He. destruct H4 as [_ Hr]; [apply Hdone; congruence|]. congruence.
Qed.

Lemma raceStep_returned env ev st :
  readerRunning st = false ->
  readerRunning (fst (raceStep env ev st)) = false /\
  readErr (fst (raceStep env ev st)) = readErr st /\
  Forall quietReader (snd (raceStep env ev st)).
Proof.
  intros Hrun. destruct ev as [s | c | r | e | r]; simpl.
  - destruct s; simpl; auto.
  - unfold onICECandidate. destruct c as [c|]; [|auto].
    destruct (candJSON c); [destruct (candWrite c)|]; simpl;
      (split; [exact Hrun | split; [reflexivity | repeat constructor]]).
  - unfold readerPass. rewrite Hrun. simpl. auto.
  - auto.
  - rewrite (readInFlight_returned env r st Hrun). simpl. auto.
Qed.

Lemma raceRun_returned env evs :
  forall st, readerRunning st = false ->
    readErr (fst (raceRun env evs st)) = readErr st /\
    Forall quietReader (snd (raceRun env evs st)).
Proof.
  induction evs as [|ev rest IH]; intros st H; simpl; [auto|].
  destruct (@raceStep_returned env ev st H) as (H1 & H2 & H3).
  destruct (raceStep env ev st) as [st1 out1]. simpl in *.
  destruct (IH st1 H1) as (K1 & K2).
  destruct (raceRun env rest st1) as [st2 out2]. simpl in *.
  split; [congruence | apply Forall_app; auto].
Qed.

Lemma quietReader_counts out :
  Forall quietReader out ->
  count isReadMsg out = 0 /\ count isAddICECandidate out = 0.
Proof.
  intros H. split; apply count_none;
    (eapply Forall_impl; [|exact H]); intros e [H1 H2]; assumption.
Qed.

(** With the context ended, a step reads nothing, or it is the read in
    flight and the reader is gone after it. *)
Lemma raceStep_ended env ev st :
  ctxErr st <> None ->
  ctxErr (fst (raceStep env ev st)) <> None /\
  (Forall quietReader (snd (raceStep env ev st)) \/
   readerRunning (fst (raceStep env ev st)) = false /\
   count isReadMsg (snd (raceStep env ev st)) <= 1 /\
   count isAddICECandidate (snd (raceStep env ev st)) <= 1).
Proof.
  intros Hctx. destruct ev as [s | c | r | e | r]; simpl.
  - split; [destruct s; exact Hctx | left; constructor].
  - unfold onICECandidate. destruct c as [c|]; [|split; [exact Hctx | left; constructor]].
    destruct (candJSON c); [destruct (candWrite c)|]; simpl;
      (split; [exact Hctx | left; repeat constructor]).
  - unfold readerPass. destruct (readerRunning st); simpl;
      [|split; [exact Hctx | left; constructor]].
    destruct (ctxErr st) eqn:E; [|congruence].
    simpl. rewrite E. split; [discriminate | left; constructor].
  - split; [|left; constructor].
    unfold contextDone, trySend. simpl.
    destruct (ctxErr st); [discriminate | congruence].
  - destruct (readerRunning st) eqn:Hrun.
    + rewrite (readInFlight_running env r st Hrun). cbn [fst snd].
      assert (Hst : ctxErr (readerTest (fst (readerRead env r st))) <> None /\
                    readerRunning (readerTest (fst (readerRead env r st))) = false).
      { destruct (readerRead_state env r st) as [-> | [e ->]].
        - unfold readerTest. rewrite Hrun.
          destruct (ctxErr st) eqn:E; [|congruence].
          simpl. rewrite E. split; [discriminate | reflexivity].
        - rewrite readerTest_returned. split; [exact Hctx | reflexivity]. }
      destruct Hst as [H1 H2]. split; [exact H1|]. right.
      split; [exact H2|].
      destruct (readerRead_trace env r st) as [-> | [init ->]];
        split; cbv; lia.
    + rewrite (readInFlight_returned env r st Hrun). simpl.
      split; [exact Hctx | left; constructor].
Qed.

Lemma raceRun_ended env evs :
  forall st, ctxErr st <> None ->
    count isReadMsg (snd (raceRun env evs st)) <= 1 /\
    count isAddICECandidate (snd (raceRun env evs st)) <= 1.
Proof.
  induction evs as [|ev rest IH]; intros st H; simpl.
  - split; cbv; lia.
  - destruct (@raceStep_ended env ev st H) as (H1 & H2).
    destruct (raceStep env ev st) as [st1 out1]. simpl in *.
    destruct H2 as [Hq | (Hrun & Hr & Ha)].
    + destruct (@quietReader_counts _ Hq) as [Q1 Q2].
      specialize (IH st1 H1).
      destruct (raceRun env rest st1) as [st2 out2]. simpl in *.
      rewrite !count_app, Q1, Q2. exact IH.
    + destruct (@raceRun_returned env rest st1 Hrun) as [_ Hq].
      destruct (raceRun env rest st1) as [st2 out2]. simpl in *.
      destruct (@quietReader_counts _ Hq) as [Q1 Q2].
      rewrite !count_app, Q1, Q2. lia.
Qed.

(** X2: once the reader goroutine has returned (on EOF, after its one
    error, or at a test that found the context ended), nothing more is
    read from the stream and no candidate is added to the endpoint,
    whatever events follow, and the read-error channel stays as it is.
    Once the context has ended, at most one more message is read, the one
    whose read was in flight, and at most one more candidate is added. *)
Theorem reader_stops_with_context :
  forall (env : Env) (st : Race) (evs : list RaceEvent),
    (readerRunning st = false ->
       count isReadMsg (snd (raceRun env evs st)) = 0 /\
       count isAddICECandidate (snd (raceRun env evs st)) = 0 /\
       readErr (fst (raceRun env evs st)) = readErr st) /\
    (ctxErr st <> None ->
       count isReadMsg (snd (raceRun env evs st)) <= 1 /\
       count isAddICECandidate (snd (raceRun env evs st)) <= 1).
Proof.
  intros env st evs. split.
  - intros H. destruct (@raceRun_returned env evs st H) as (Hr & Hout).
    destruct (@quietReader_counts _ Hout) as [Q1 Q2]. auto.
  - apply raceRun_ended.
Qed.

(** The read in flight when the deadline passes does complete, and its
    candidate reaches the endpoint; the messages after it are not read. *)
Lemma read_in_flight_completes :
  count isReadMsg (snd (raceRun sampleEnv lateSchedule raceInit)) = 1 /\
  count isAddICECandidate (snd (raceRun sampleEnv lateSchedule raceInit)) = 1 /\
  readerRunning (fst (raceRun sampleEnv lateSchedule raceInit)) = false.
Proof. repeat split. Qed.

(** X3: while the reader runs and the context lives, a run of Candidate
    messages whose non-empty payloads decode and are accepted by the
    endpoint is forwarded in order: one read per message, one
    add-candidate call per non-empty payload, with the decoded payload,
    none for an empty one; no channel changes and the reader stays in its
    loop. *)
Theorem candidates_forwarded_in_order :
  forall (env : Env) (st : Race) (ds : list string),
    readerRunning st = true ->
    ctxErr st = None ->
    (forall d, In d ds -> d <> "" ->
               exists init, envUnmarshal env d = OK init /\
                            envAddICECandidate env init = None) ->
    raceRun env (map (fun d => ReaderPass (ReadMsg (candidateMsg (Some d)))) ds) st
    = (st, forwarded env ds).
Proof.
  intros env st ds Hrun Hctx. induction ds as [|d ds IH]; intros Hok; [reflexivity|].
  assert (Hstep : raceStep env (ReaderPass (ReadMsg (candidateMsg (Some d)))) st
                  = (st, forwarded env [d])).
  { cbn [raceStep]. unfold readerPass, readerRead, forwarded. rewrite Hrun, Hctx.
    cbn [negb candidateMsg pb.typeIsNot pb.MsgType pb.Message_Type_eqb
         pb.dataEmpty pb.Data flat_map]. rewrite app_nil_r.
    destruct (String.eqb d "") eqn:Hd; [reflexivity|].
    apply String.eqb_neq in Hd.
    destruct (Hok d (or_introl eq_refl) Hd) as (init & Hu & Ha).
    rewrite Hu, Ha. reflexivity. }
  cbn [map raceRun]. rewrite Hstep.
  rewrite IH by (intros d' Hin; apply Hok; right; exact Hin).
  unfold forwarded. cbn [flat_map]. rewrite app_nil_r. reflexivity.
Qed.

Lemma candidates_forwarded_in_order_witness :
  raceRun sampleEnv
    (map (fun d => ReaderPass (ReadMsg (candidateMsg (Some d)))) ["{a}"; ""; "{b}"])
    raceInit
  = (raceInit,
     [EvReadMsg; EvAddICECandidate {| Candidate := "{a}" |};
      EvReadMsg;
      EvReadMsg; EvAddICECandidate {| Candidate := "{b}" |}]).
Proof.
  refine (@candidates_forwarded_in_order sampleEnv raceInit ["{a}"; ""; "{b}"]
            eq_refl eq_refl _).
  intros d _ _. exists {| Candidate := d |}. split; reflexivity.
Defined.

(** X4: the candidate callback writes one Candidate message per local
    candidate, in the order they are found, carrying its JSON; called with
    a nil pointer it writes nothing.  As long as marshalling and writing
    succeed, the write-error channel and every other channel stay as they
    are. *)
Theorem local_candidates_announced_in_order :
  forall (env : Env) (st : Race) (cs : list (option LocalCandidate)),
    (forall c, In (Some c) cs ->
               exists data, candJSON c = OK data /\ candWrite c = None) ->
    raceRun env (map ICECandidateFound cs) st = (st, announced cs).
Proof.
  intros env st cs. induction cs as [|oc cs IH]; intros Hok; [reflexivity|].
  assert (Hstep : raceStep env (ICECandidateFound oc) st = (st, announced [oc])).
  { cbn [raceStep]. unfold onICECandidate, announced. cbn [flat_map].
    rewrite app_nil_r. destruct oc as [c|]; [|reflexivity].
    destruct (Hok c (or_introl eq_refl)) as (data & Hj & Hw).
    rewrite Hj, Hw. reflexivity. }
  cbn [map raceRun]. rewrite Hstep.
  rewrite IH by (intros c Hin; apply Hok; right; exact Hin).
  unfold announced. cbn [flat_map]. rewrite app_nil_r. reflexivity.
Qed.

Lemma local_candidates_announced_in_order_witness :
  raceRun sampleEnv
    (map ICECandidateFound
         [Some {| candJSON := OK "{h}"; candWrite := None |}; None;
          Some {| candJSON := OK "{s}"; candWrite := None |}])
    raceInit
  = (raceInit,
     [EvWriteMsg (candidateMsg (Some "{h}")); EvWriteMsg (candidateMsg (Some "{s}"))]).
Proof.
  refine (@local_candidates_announced_in_order sampleEnv raceInit
            [Some {| candJSON := OK "{h}"; candWrite := None |}; None;
             Some {| candJSON := OK "{s}"; candWrite := None |}] _).
  intros c [H | [H | [H | []]]]; try discriminate H;
    injection H as <-; eexists; split; reflexivity.
Defined.

(** ** setupConnection, path by path *)

Lemma raceStep_wire env ev st :
  Forall (fun e => wireEvent e = true) (snd (raceStep env ev st)).
Proof.
  destruct ev as [s | c | r | e | r]; simpl; auto.
  - unfold onICECandidate. destruct c as [c|]; simpl; auto.
    destruct (candJSON c); simpl; auto.
    destruct (candWrite c); simpl; repeat constructor.
  - unfold readerPass, readerRead.
    destruct (readerRunning st); simpl; auto.
    destruct (ctxErr st); simpl; auto.
    destruct r as [ | e | msg]; simpl; repeat constructor.
    destruct (pb.typeIsNot msg pb.Message_ICE_CANDIDATE); simpl; repeat constructor.
    destruct (pb.dataEmpty msg); simpl; repeat constructor.
    destruct (envUnmarshal env _); simpl; repeat constructor.
    destruct (envAddICECandidate env _); simpl; repeat constructor.
  - destruct (readInFlight_trace env r st) as [-> | [-> | [init ->]]];
      repeat constructor.
Qed.

Lemma raceRun_wire env evs :
  forall st, Forall (fun e => wireEvent e = true) (snd (raceRun env evs st)).
Proof.
  induction evs as [|ev rest IH]; intros st; simpl; [constructor|].
  pose proof (raceStep_wire env ev st) as H1.
  destruct (raceStep env ev st) as [st1 out1].
  specialize (IH st1). destruct (raceRun env rest st1) as [st2 out2].
  simpl in *. apply Forall_app. auto.
Qed.

Lemma count_wire f out :
  (forall e, wireEvent e = true -> f e = false) ->
  Forall (fun e => wireEvent e = true) out -> count f out = 0.
Proof.
  intros Hf Hout. apply count_none. eapply Forall_impl; [|exact Hout]. exact Hf.
Qed.

Lemma count_nil f : count f [] = 0.
Proof. reflexivity. Qed.

(** Every path of [setupConnection] once the endpoint exists: the goal is
    split along each answer of the environment, the output of the race
    kept as a list of wire events. *)
Ltac setup_paths env Hpc :=
  unfold run; go_unfold; unfold emit, ret, panic; rewrite Hpc;
  generalize (raceRun_wire env (envSchedule env) raceInit);
  destruct (raceRun env (envSchedule env) raceInit) as [st out];
  cbn [snd]; intros Hwire;
  cbv beta iota;
  repeat (match goal with
          | |- context [match ?x with _ => _ end] =>
              lazymatch x with
              | context [match _ with _ => _ end] => fail
              | _ => destruct x eqn:?
              end
          end; cbv beta iota).

Ltac wire_side Hwire :=
  first [ exact Hwire
        | let e := fresh "e" in intros e; destruct e; simpl; congruence ].

Ltac count_trace Hwire :=
  rewrite ?count_app, ?count_cons, ?count_nil;
  repeat match goal with
         | |- context [count ?f ?o] =>
             rewrite (@count_wire f o) by wire_side Hwire
         end;
  reflexivity.



(** X6: once the endpoint has been created, every exit of
    setupConnection, with a connection or with an error, replaces the
    candidate callback by the empty one exactly once, and closes the "init"
    data channel exactly once if it could be created (and never if it
    could not). *)
Theorem setupConnection_releases_side_channel :
  forall (t : transport) (env : Env) (scope : ConnManagementScope)
         (raddr : ma.Multiaddr) (pc : PeerConnection),
    envNewPeerConnection env = OK pc ->
    count isCallbackOff (snd (run (setupConnection t env scope raddr))) = 1 /\
    (envCreateDataChannel env = None ->
     count isDcClose (snd (run (setupConnection t env scope raddr))) = 1) /\
    (envCreateDataChannel env <> None ->
     count isDcClose (snd (run (setupConnection t env scope raddr))) = 0).
Proof.
  intros t env scope raddr pc Hpc. setup_paths env Hpc.
  all: cbn [snd]; split; [count_trace Hwire|].
  all: split; intros Hdc; first [congruence | count_trace Hwire].
Qed.

Lemma setupConnection_releases_side_channel_witness :
  count isDcClose
    (snd (run (setupConnection sampleTransport
                 (envWith None (OK (candidateMsg None)) [])
                 sampleScope sampleAddr)))
  = 1.
Proof.
  refine (proj1 (proj2 (@setupConnection_releases_side_channel sampleTransport
                          (envWith None (OK (candidateMsg None)) [])
                          sampleScope sampleAddr samplePC eq_refl)) eq_refl).
Defined.

Lemma count_split f (tr a b : list event) e :
  tr = a ++ e :: b -> f e = true -> 1 <= count f tr.
Proof.
  intros -> He. rewrite count_app, count_cons, He. lia.
Qed.

(** Where an add-candidate call sits in a trace that has none before a
    set-remote-description call. *)
Lemma add_after_remote pre sdp rest a i b :
  count isAddICECandidate pre = 0 ->
  pre ++ EvSetRemoteDescription sdp :: rest = a ++ EvAddICECandidate i :: b ->
  In (EvSetRemoteDescription sdp) a.
Proof.
  revert a. induction pre as [|x pre IH]; intros a Hpre Heq.
  - destruct a as [|y a]; simpl in Heq; [discriminate Heq|].
    injection Heq as <- _. left. reflexivity.
  - rewrite count_cons in Hpre.
    destruct a as [|y a]; simpl in Heq.
    + injection Heq as -> _. simpl in Hpre. discriminate Hpre.
    + injection Heq as <- Heq. right. apply IH; [lia | exact Heq].
Qed.

(** X7: no candidate of the remote is added to the endpoint before the
    answer has been applied: in every trace of setupConnection, an
    add-candidate call has a set-remote-description call before it, and
    that call succeeded. *)
Theorem candidates_only_after_answer :
  forall (t : transport) (env : Env) (scope : ConnManagementScope)
         (raddr : ma.Multiaddr) (a : list event) (i : ICECandidateInit)
         (b : list event),
    snd (run (setupConnection t env scope raddr)) = a ++ EvAddICECandidate i :: b ->
    (exists sdp, In (EvSetRemoteDescription sdp) a) /\
    envSetRemoteDescription env = None.
Proof.
  intros t env scope raddr a i b.
  destruct (envNewPeerConnection env) as [pc | e0] eqn:Hpc.
  - setup_paths env Hpc.
    all: cbn [snd]; intros Hsplit.
    all: try (exfalso;
              pose proof (@count_split isAddICECandidate _ _ _ _ Hsplit eq_refl) as Hc;
              revert Hc;
              rewrite ?count_app, ?count_cons, ?count_nil;
              repeat match goal with
                     | |- context [count ?f ?o] =>
                         rewrite (@count_wire f o) by wire_side Hwire
                     end;
              simpl; lia).
    all: split; [|first [assumption | reflexivity]].
    all: repeat rewrite <- app_assoc in Hsplit; simpl in Hsplit.
    all: eexists;
      match type of Hsplit with
      | ?x1 :: ?x2 :: ?x3 :: ?x4 :: ?x5 :: ?x6 :: EvSetRemoteDescription ?s :: ?rest = _ =>
          apply (@add_after_remote [x1; x2; x3; x4; x5; x6] s rest a i b eq_refl Hsplit)
      end.
  - unfold run. go_unfold. unfold emit, ret, panic. rewrite Hpc. cbn [snd].
    intros Hsplit. exfalso.
    pose proof (@count_split isAddICECandidate _ _ _ _ Hsplit eq_refl) as Hc.
    simpl in Hc. unfold count in Hc. simpl in Hc. lia.
Qed.

Lemma candidates_only_after_answer_witness :
  (exists sdp,
      In (EvSetRemoteDescription sdp)
         [EvNewPeerConnection; EvCreateDataChannel; EvCreateOffer;
          EvWriteMsg (offerMsg "v=0 offer"); EvSetLocalDescription "v=0 offer";
          EvReadMsg; EvSetRemoteDescription "v=0 answer";
          EvWriteMsg (candidateMsg (Some "{local}")); EvReadMsg]) /\
  envSetRemoteDescription sampleEnv = None.
Proof.
  refine (@candidates_only_after_answer sampleTransport sampleEnv sampleScope sampleAddr
            [EvNewPeerConnection; EvCreateDataChannel; EvCreateOffer;
             EvWriteMsg (offerMsg "v=0 offer"); EvSetLocalDescription "v=0 offer";
             EvReadMsg; EvSetRemoteDescription "v=0 answer";
             EvWriteMsg (candidateMsg (Some "{local}")); EvReadMsg]
            {| Candidate := "{remote}" |}
            [EvReadMsg; EvNewWebRTCConnection; EvCancel; EvDcClose; EvOnICECandidateOff]
            _).
  reflexivity.
Defined.

Lemma valid_answer msg :
  pb.typeIsNot msg pb.Message_SDP_ANSWER = false ->
  pb.dataEmpty msg = false ->
  exists d, msg = pb.mkMessage (Some pb.Message_SDP_ANSWER) (Some d) /\ d <> "".
Proof.
  destruct msg as [[[]|] [d|]]; unfold pb.typeIsNot, pb.dataEmpty; simpl;
    intros Hty Hd; try discriminate.
  exists d. split; [reflexivity|]. apply String.eqb_neq. exact Hd.
Qed.

(** X8: setupConnection returns a connection only along one path: the
    endpoint, its data channel and the offer were made and the offer sent
    and set, the message read was an Answer with a non-empty payload that
    the endpoint accepted, the select received the state connected, the
    local address could be derived and the connection built.  The
    connection is outbound, holds the endpoint, the scope and the dialed
    address it was given, this host's ID and the derived local address. *)
Theorem setupConnection_success_path :
  forall (t : transport) (env : Env) (scope : ConnManagementScope)
         (raddr : ma.Multiaddr) (c : CapableConn) (tr : list event),
    run (setupConnection t env scope raddr) = (Ret (OK c), tr) ->
    exists pc sdp answer localAddr,
      offerSent env pc sdp /\
      answerApplied env answer /\
      selectSignal (envPick env) (raceAtSelect env)
      = SigState PeerConnectionStateConnected /\
      getLocalConnectionAddress env pc = OK localAddr /\
      envNewWebRTCConnection env = None /\
      c = mkConn DirOutbound pc scope (ID (host t)) localAddr
                 (envRemotePeer env) raddr.
Proof.
  intros t env scope raddr c tr.
  unfold offerSent, answerApplied, raceAtSelect.
  destruct (envNewPeerConnection env) as [pc | e0] eqn:Hpc.
  - setup_paths env Hpc.
    all: cbn [fst]; intros H; try discriminate H.
    all: injection H as <- <-.
    all: match goal with
         | Hty : pb.typeIsNot ?m _ = false, Hd : pb.dataEmpty ?m = false |- _ =>
             destruct (valid_answer _ Hty Hd) as (d & -> & Hne)
         end.
    all: match goal with
         | Hdata : pb.Data _ = _ |- _ => simpl in Hdata
         end.
    all: try match goal with
             | Hdata : Some _ = Some _ |- _ => injection Hdata as <-
             end.
    all: try match goal with
             | Hdata : Some _ = None |- _ => discriminate Hdata
             end.
    all: do 4 eexists; repeat split; try reflexivity; try eassumption.
  - unfold run. go_unfold. unfold emit, ret, panic. rewrite Hpc.
    intros H. discriminate H.
Qed.

Lemma setupConnection_success_path_witness :
  exists pc sdp answer localAddr,
    offerSent sampleEnv pc sdp /\
    answerApplied sampleEnv answer /\
    selectSignal (envPick sampleEnv) (raceAtSelect sampleEnv)
    = SigState PeerConnectionStateConnected /\
    getLocalConnectionAddress sampleEnv pc = OK localAddr /\
    envNewWebRTCConnection sampleEnv = None /\
    fst (run (setupConnection sampleTransport sampleEnv sampleScope sampleAddr))
    = Ret (OK (mkConn DirOutbound pc sampleScope (ID (host sampleTransport)) localAddr
                      (envRemotePeer sampleEnv) sampleAddr)).
Proof.
  destruct (@setupConnection_success_path sampleTransport sampleEnv sampleScope sampleAddr
              _ _ eq_refl)
    as (pc & sdp & answer & localAddr & H1 & H2 & H3 & H4 & H5 & H6).
  exists pc, sdp, answer, localAddr.
  repeat split; try apply H1; try apply H2; try assumption.
  rewrite <- H6. reflexivity.
Defined.

(** X9: with the offer sent and the answer applied, what the select
    receives decides the result.  An ended context, a read error or a write
    error is returned as it is, not wrapped; an endpoint state other than
    connected gives the error "conn establishment failed"; in each of these
    cases the endpoint is closed before the deferred cleanup runs
    (cancel, data channel, callback) and once more after it. *)
Theorem setupConnection_fatal_signal :
  forall (t : transport) (env : Env) (scope : ConnManagementScope)
         (raddr : ma.Multiaddr) (pc : PeerConnection) (sdp answer : string)
         (sig : Signal),
    offerSent env pc sdp ->
    answerApplied env answer ->
    selectSignal (envPick env) (raceAtSelect env) = sig ->
    sig <> SigState PeerConnectionStateConnected ->
    run (setupConnection t env scope raddr)
    = (Ret (Err (match sig with
                 | SigDone e | SigReadErr e | SigWriteErr e => e
                 | SigState _ => errorString "conn establishment failed"
                 end)),
       offerTrace sdp ++ [EvSetRemoteDescription answer]
       ++ snd (raceRun env (envSchedule env) raceInit)
       ++ [EvPcClose; EvCancel; EvDcClose; EvOnICECandidateOff; EvPcClose]).
Proof.
  intros t env scope raddr pc sdp answer sig
         (Hpc & Hdc & Hoffer & Hw & Hl) (Hread & Hne & Hremote) Hsel Hnot.
  unfold raceAtSelect in Hsel.
  unfold run. go_unfold. rewrite Hpc, Hdc, Hoffer, Hw, Hl, Hread.
  unfold pb.typeIsNot, pb.dataEmpty. simpl.
  apply String.eqb_neq in Hne. rewrite Hne, Hremote.
  destruct (raceRun env (envSchedule env) raceInit) as [st out].
  simpl in Hsel. rewrite Hsel.
  destruct sig as [e | e | e | s]; [| | |destruct s; try congruence];
    go_unfold; unfold offerTrace; simpl; repeat rewrite <- app_assoc; reflexivity.
Qed.

Lemma setupConnection_fatal_signal_witness :
  fst (run (setupConnection sampleTransport
              (envWith None (OK (answerMsg "v=0 answer")) intruderSchedule)
              sampleScope sampleAddr))
  = Ret (Err (errorString "invalid message: expected ICE_CANDIDATE")).
Proof.
  rewrite (@setupConnection_fatal_signal sampleTransport
             (envWith None (OK (answerMsg "v=0 answer")) intruderSchedule)
             sampleScope sampleAddr samplePC "v=0 offer" "v=0 answer"
             (SigReadErr (errorString "invalid message: expected ICE_CANDIDATE"))).
  - reflexivity.
  - repeat split.
  - repeat split. discriminate.
  - reflexivity.
  - discriminate.
Defined.

(** ** dialWithScope, path by path *)

Lemma firstStreamEnd_app a b :
  firstStreamEnd (a ++ b)
  = match firstStreamEnd a with
    | Some e => Some e
    | None => firstStreamEnd b
    end.
Proof.
  unfold firstStreamEnd. induction a as [|x a IH]; simpl; [reflexivity|].
  destruct (isStreamReset x || isStreamClose x); [reflexivity | exact IH].
Qed.

Lemma firstStreamEnd_session out : Forall isSession out -> firstStreamEnd out = None.
Proof.
  unfold firstStreamEnd. induction 1 as [|e out He _ IH]; simpl; [reflexivity|].
  rewrite IH. destruct e; try discriminate He; reflexivity.
Qed.

Lemma count_session f out :
  (forall e, sessionEvent e = true -> f e = false) ->
  Forall isSession out -> count f out = 0.
Proof.
  intros Hf Hout. apply count_none. eapply Forall_impl; [|exact Hout]. exact Hf.
Qed.

Ltac session_side F :=
  first [ exact F
        | let e := fresh "e" in intros e; destruct e; simpl; congruence ].

Ltac count_dial F :=
  rewrite ?count_app, ?count_cons, ?count_nil;
  repeat match goal with
         | |- context [count ?f ?o] =>
             rewrite (@count_session f o) by session_side F
         end;
  reflexivity.

Ltac first_end F :=
  rewrite ?firstStreamEnd_app, (firstStreamEnd_session F); reflexivity.

Lemma dialWithScope_outcome t env ctx p scope raddr tr0 :
  exists r out,
    dialWithScope t env ctx p scope raddr tr0 = (r, tr0 ++ out) /\
    dialOutcome t env p r out.
Proof.
  unfold dialWithScope, check, call, bind, defer, emit, ret, dialOutcome, streamReady.
  destruct (envNewStream env) as [e1|] eqn:Hs.
  { eexists. eexists. split; [reflexivity|]. left. split; [discriminate | reflexivity]. }
  destruct (envSetService env) as [e2|] eqn:Hsvc.
  { eexists. eexists. split; [repeat rewrite <- app_assoc; reflexivity|].
    right. split; [reflexivity|]. split; [reflexivity|]. split; [reflexivity|].
    simpl. intros [H | [H | [H | []]]]; discriminate H. }
  destruct (envReserveMemory env) as [e3|] eqn:Hmem.
  { eexists. eexists. split; [repeat rewrite <- app_assoc; reflexivity|].
    right. split; [reflexivity|]. split; [reflexivity|]. split; [reflexivity|].
    simpl. intros [H | [H | [H | [H | []]]]]; discriminate H. }
  match goal with
  | |- context [setupConnection t env scope raddr ?tr] =>
      destruct (setupConnection_session t env scope raddr tr) as (out & E & F);
      destruct (setupConnection t env scope raddr tr) as [r tr1]
  end.
  simpl in E. subst tr1.
  destruct r as [[conn | e] | ].
  - destruct (gater t) as [intercept|].
    + destruct (intercept DirOutbound p conn) eqn:Hg.
      * eexists. eexists. split; [repeat rewrite <- app_assoc; reflexivity|].
        cbv beta iota. rewrite Hg.
        repeat split; count_dial F.
      * eexists. eexists. split; [repeat rewrite <- app_assoc; reflexivity|].
        right. split; [reflexivity|]. split; [count_dial F|].
        split; [first_end F | auto].
    + eexists. eexists. split; [repeat rewrite <- app_assoc; reflexivity|].
      cbv beta iota. repeat split; count_dial F.
  - eexists. eexists. split; [repeat rewrite <- app_assoc; reflexivity|].
    right. split; [reflexivity|]. split; [count_dial F|].
    split; [first_end F | auto].
  - eexists. eexists. split; [repeat rewrite <- app_assoc; reflexivity|].
    cbv beta iota. repeat split; count_dial F.
Qed.

(** X10: once the signaling stream is open, every error return of
    dialWithScope resets it exactly once, and Reset is the first call that
    ends the stream (when tagging the stream or reserving its memory
    failed, Close is not called at all); a return with a connection never
    resets the stream and closes it exactly once. *)
Theorem dialWithScope_resets_on_error_closes_on_success :
  forall (t : transport) (env : Env) (ctx : Context) (p : string)
         (scope : ConnManagementScope) (raddr : ma.Multiaddr),
    envNewStream env = None ->
    match run (dialWithScope t env ctx p scope raddr) with
    | (Ret (Err _), tr) =>
        count isStreamReset tr = 1 /\ firstStreamEnd tr = Some EvStreamReset
    | (Ret (OK _), tr) =>
        count isStreamReset tr = 0 /\ count isStreamClose tr = 1
    | (Panic, _) => True
    end.
Proof.
  intros t env ctx p scope raddr Hs. unfold run.
  destruct (dialWithScope_outcome t env ctx p scope raddr []) as (r & out & E & H).
  rewrite E. simpl. unfold dialOutcome in H.
  destruct r as [[c | e] | ]; [| |exact I].
  - destruct H as (_ & H1 & H2 & _). auto.
  - destruct H as [[Hn _] | (_ & H1 & H2 & _)]; [congruence | auto].
Qed.

Lemma dialWithScope_resets_on_error_closes_on_success_witness :
  match run (dialWithScope sampleTransport sampleEnv sampleCtx "QmPeer"
               sampleScope sampleAddr) with
  | (Ret (Err _), tr) =>
      count isStreamReset tr = 1 /\ firstStreamEnd tr = Some EvStreamReset
  | (Ret (OK _), tr) =>
      count isStreamReset tr = 0 /\ count isStreamClose tr = 1
  | (Panic, _) => True
  end.
Proof.
  exact (@dialWithScope_resets_on_error_closes_on_success sampleTransport sampleEnv
           sampleCtx "QmPeer" sampleScope sampleAddr eq_refl).
Defined.

(** X11: no connection leaves dialWithScope past the gater.  When it
    returns a connection and a gater is configured, InterceptSecured was
    consulted exactly once and accepted that connection; without a gater
    it is never consulted.  A returned connection has not been closed. *)
Theorem dialWithScope_connection_passed_gater :
  forall (t : transport) (env : Env) (ctx : Context) (p : string)
         (scope : ConnManagementScope) (raddr : ma.Multiaddr)
         (c : CapableConn) (tr : list event),
    run (dialWithScope t env ctx p scope raddr) = (Ret (OK c), tr) ->
    count isConnClose tr = 0 /\
    match gater t with
    | Some intercept =>
        intercept DirOutbound p c = true /\ count isInterceptSecured tr = 1
    | None => count isInterceptSecured tr = 0
    end.
Proof.
  intros t env ctx p scope raddr c tr Hrun. unfold run in Hrun.
  destruct (dialWithScope_outcome t env ctx p scope raddr []) as (r & out & E & H).
  rewrite E in Hrun. injection Hrun as -> <-. simpl.
  destruct H as (_ & _ & _ & H3 & H4). auto.
Qed.

Lemma dialWithScope_connection_passed_gater_witness :
  count isInterceptSecured
    (snd (run (dialWithScope gatedTransport sampleEnv sampleCtx "QmPeer"
                 sampleScope sampleAddr)))
  = 1.
Proof.
  destruct (@dialWithScope_connection_passed_gater gatedTransport sampleEnv sampleCtx
              "QmPeer" sampleScope sampleAddr _ _ eq_refl) as (_ & _ & H).
  exact H.
Defined.

(** X12: dialWithScope creates no endpoint before the signaling stream is
    open, tagged with the transport's service name and has its memory
    reserved: whenever NewPeerConnection was called, all three had
    succeeded. *)
Theorem endpoint_only_after_reservation :
  forall (t : transport) (env : Env) (ctx : Context) (p : string)
         (scope : ConnManagementScope) (raddr : ma.Multiaddr),
    In EvNewPeerConnection (snd (run (dialWithScope t env ctx p scope raddr))) ->
    streamReady env.
Proof.
  intros t env ctx p scope raddr Hin. unfold run in Hin.
  destruct (dialWithScope_outcome t env ctx p scope raddr []) as (r & out & E & H).
  rewrite E in Hin. simpl in Hin. unfold dialOutcome in H.
  destruct r as [[c | e] | ].
  - apply H.
  - destruct H as [[_ ->] | (_ & _ & _ & H)]; [|auto].
    destruct Hin as [Hin | []]. discriminate Hin.
  - apply H.
Qed.

Lemma endpoint_only_after_reservation_witness : streamReady sampleEnv.
Proof.
  apply (@endpoint_only_after_reservation sampleTransport sampleEnv sampleCtx "QmPeer"
           sampleScope sampleAddr).
  vm_compute. tauto.
Defined.

Ltac deadline_side :=
  let d := fresh "d" in
  let H := fresh "H" in
  intros d H; first [discriminate H | injection H as <-; reflexivity].

Ltac deadline_step :=
  lazymatch goal with
  | |- appendsOnly _ (ret _) => apply appendsOnly_ret
  | |- appendsOnly _ (emit _) => apply appendsOnly_emit; deadline_side
  | |- appendsOnly _ (call _ _) => apply appendsOnly_call; deadline_side
  | |- appendsOnly _ (check _ _ _) => apply appendsOnly_check
  | |- appendsOnly _ (defer _ _) => apply appendsOnly_defer; [|intros ?]
  | |- appendsOnly _ (bind _ _) => apply appendsOnly_bind; [|intros ?]
  end.

Lemma dialWithScope_deadline t env ctx p scope raddr :
  appendsOnly (deadlineIs env ctx) (dialWithScope t env ctx p scope raddr).
Proof.
  unfold dialWithScope. repeat deadline_step.
  match goal with o : option error |- _ => destruct o end; [repeat deadline_step|].
  destruct (envReserveMemory env); repeat deadline_step.
  - eapply appendsOnly_impl; [|apply setupConnection_session].
    intros e He d Hd. subst e. discriminate He.
  - match goal with r : result CapableConn |- _ => destruct r as [conn | e] end;
      [|repeat deadline_step].
    destruct (gater t) as [intercept|]; repeat deadline_step.
    destruct (intercept DirOutbound p conn); repeat deadline_step.
Qed.

(** X13: the deadline dialWithScope sets on the signaling stream is
    never later than connectTimeout (one minute) from now, never later
    than the caller's own deadline when the context has one, and is one of
    the two. *)
Theorem stream_deadline_is_the_earlier :
  forall (t : transport) (env : Env) (ctx : Context) (p : string)
         (scope : ConnManagementScope) (raddr : ma.Multiaddr) (d : Z),
    In (EvSetDeadline d) (snd (run (dialWithScope t env ctx p scope raddr))) ->
    (d <= envNow env + connectTimeout)%Z /\
    (forall d', Deadline ctx = Some d' -> (d <= d')%Z) /\
    (d = (envNow env + connectTimeout)%Z \/ Deadline ctx = Some d).
Proof.
  intros t env ctx p scope raddr d Hin. unfold run in Hin.
  destruct (dialWithScope_deadline t env ctx p scope raddr []) as (out & E & F).
  rewrite E in Hin. simpl in Hin.
  rewrite Forall_forall in F. specialize (F _ Hin d eq_refl). subst d.
  unfold streamDeadline.
  destruct (Deadline ctx) as [d'|].
  - destruct (Z.ltb_spec d' (envNow env + connectTimeout)) as [Hlt | Hge].
    + split; [lia|]. split; [|right; reflexivity].
      intros d'' Hd. injection Hd as <-. lia.
    + split; [lia|]. split; [|left; reflexivity].
      intros d'' Hd. injection Hd as <-. lia.
  - split; [lia|]. split; [|left; reflexivity]. intros d'' Hd. discriminate Hd.
Qed.

Lemma stream_deadline_is_the_earlier_witness :
  (5000 <= envNow sampleEnv + connectTimeout)%Z /\
  (forall d', Deadline {| Deadline := Some 5000%Z |} = Some d' -> (5000 <= d')%Z) /\
  (5000%Z = (envNow sampleEnv + connectTimeout)%Z \/
   Deadline {| Deadline := Some 5000%Z |} = Some 5000%Z).
Proof.
  apply (@stream_deadline_is_the_earlier sampleTransport sampleEnv
           {| Deadline := Some 5000%Z |} "QmPeer" sampleScope sampleAddr 5000%Z).
  vm_compute. tauto.
Defined.

(** ** Dial, path by path *)

(** [Dial] once the relay is connected, the scope opened and tagged: the
    rest is [dialWithScope], and [scope.Done()] after an error. *)
Lemma Dial_from_dialWithScope t env ctx raddr p relay scope :
  scopeOpened env raddr relay scope ->
  envSetPeer env = None ->
  run (Dial t env ctx raddr p)
  = match dialWithScope t env ctx p scope raddr
            [EvConnect p relay; EvOpenConnection raddr; EvScopeSetPeer p] with
    | (Ret (Err e), tr) => (Ret (Err e), tr ++ [EvScopeDone])
    | (Ret (OK c), tr) => (Ret (OK c), tr)
    | (Panic, tr) => (Panic, tr)
    end.
Proof.
  intros (Hrelay & Hconnect & Hopen) Hpeer.
  unfold run, Dial, check, call, liftOutcome.
  rewrite Hrelay. unfold bind at 1. unfold bind at 1. unfold bind at 1.
  unfold emit at 1, ret at 1. rewrite Hconnect.
  unfold bind at 1. unfold emit at 1. rewrite Hopen.
  unfold bind at 1. unfold bind at 1. unfold emit at 1, ret at 1. rewrite Hpeer.
  unfold bind. simpl.
  destruct (dialWithScope t env ctx p scope raddr _) as [[[c | e] | ] tr1];
    reflexivity.
Qed.

(** X14: Dial returns a connection only after the relay connection was
    made, to the address getRelayAddr gives and as the first call, and
    after the scope was opened and tagged.  The connection holds that scope
    and the dialed address; the scope has not been released, and the
    signaling stream was closed once and never reset. *)
Theorem Dial_success_hands_over_scope :
  forall (t : transport) (env : Env) (ctx : Context) (raddr : ma.Multiaddr)
         (p : string) (c : CapableConn) (tr : list event),
    run (Dial t env ctx raddr p) = (Ret (OK c), tr) ->
    (exists relay, getRelayAddr raddr = Ret relay /\
                   hd_error tr = Some (EvConnect p relay)) /\
    envOpenConnection env = OK (connScope c) /\
    envSetPeer env = None /\
    connRemoteAddr c = raddr /\
    count isScopeDone tr = 0 /\
    count isStreamReset tr = 0 /\
    count isStreamClose tr = 1.
Proof.
  intros t env ctx raddr p c tr Hrun.
  destruct (getRelayAddr raddr) as [relay|] eqn:Hrelay;
    [|unfold run, Dial, liftOutcome, bind in Hrun; rewrite Hrelay in Hrun;
      discriminate Hrun].
  destruct (envConnect env) as [e1|] eqn:Hconnect;
    [unfold run, Dial, check, call, liftOutcome, bind, emit, ret in Hrun;
     rewrite Hrelay, Hconnect in Hrun; discriminate Hrun|].
  destruct (envOpenConnection env) as [scope|e2] eqn:Hopen;
    [|unfold run, Dial, check, call, liftOutcome, bind, emit, ret in Hrun;
      rewrite Hrelay, Hconnect, Hopen in Hrun; discriminate Hrun].
  destruct (envSetPeer env) as [e3|] eqn:Hpeer;
    [unfold run, Dial, check, call, liftOutcome, bind, emit, ret in Hrun;
     rewrite Hrelay, Hconnect, Hopen, Hpeer in Hrun; discriminate Hrun|].
  rewrite (@Dial_from_dialWithScope t env ctx raddr p relay scope) in Hrun
    by (repeat split; assumption).
  match type of Hrun with
  | context [dialWithScope t env ctx p scope raddr ?tr0] =>
      destruct (dialWithScope_outcome t env ctx p scope raddr tr0) as (r & out & E & H);
      destruct (dialWithScope_notScopeDone t env ctx p scope raddr tr0) as (out' & E' & F);
      pose proof (dialWithScope_conn t env ctx p scope raddr tr0) as Hc
  end.
  rewrite E in E', Hc, Hrun. simpl in E', Hc.
  injection E' as <-.
  destruct r as [[c' | e] | ]; try discriminate Hrun.
  injection Hrun as -> <-. destruct Hc as [Hscope Haddr].
  destruct H as (_ & H1 & H2 & _).
  split; [exists relay; split; reflexivity|].
  split; [congruence|]. split; [reflexivity|]. split; [exact Haddr|].
  split; [rewrite ?count_cons, (count_none _ F); reflexivity|].
  split; [rewrite ?count_cons, H1; reflexivity | rewrite ?count_cons, H2; reflexivity].
Qed.

Lemma Dial_success_hands_over_scope_witness :
  count isStreamClose
    (snd (run (Dial sampleTransport sampleEnv sampleCtx sampleAddr "QmPeer")))
  = 1.
Proof.
  destruct (@Dial_success_hands_over_scope sampleTransport sampleEnv sampleCtx sampleAddr
              "QmPeer" _ _ eq_refl) as (_ & _ & _ & _ & _ & _ & H).
  exact H.
Defined.

(** X15: once the scope is opened and tagged, every error return of Dial
    releases it as its last call, and only then: [scope.Done()] ends the
    trace and does not occur before. *)
Theorem Dial_error_releases_scope_last :
  forall (t : transport) (env : Env) (ctx : Context) (raddr : ma.Multiaddr)
         (p : string) (relay : option ma.Multiaddr) (scope : ConnManagementScope)
         (e : error) (tr : list event),
    scopeOpened env raddr relay scope ->
    envSetPeer env = None ->
    run (Dial t env ctx raddr p) = (Ret (Err e), tr) ->
    exists tr', tr = tr' ++ [EvScopeDone] /\ count isScopeDone tr' = 0.
Proof.
  intros t env ctx raddr p relay scope e tr Hopen Hpeer Hrun.
  rewrite (Dial_from_dialWithScope t ctx p Hopen Hpeer) in Hrun.
  match type of Hrun with
  | context [dialWithScope t env ctx p scope raddr ?tr0] =>
      destruct (dialWithScope_notScopeDone t env ctx p scope raddr tr0) as (out & E & F);
      destruct (dialWithScope t env ctx p scope raddr tr0) as [r tr1]
  end.
  simpl in E. subst tr1.
  destruct r as [[c' | e'] | ]; try discriminate Hrun.
  injection Hrun as <- <-.
  exists (EvConnect p relay :: EvOpenConnection raddr :: EvScopeSetPeer p :: out).
  split; [reflexivity|].
  rewrite ?count_cons, (count_none _ F). reflexivity.
Qed.

Lemma Dial_error_releases_scope_last_witness :
  exists tr',
    snd (run (Dial sampleTransport
                (envWith None (OK (candidateMsg None)) [])
                sampleCtx sampleAddr "QmPeer"))
    = tr' ++ [EvScopeDone] /\
    count isScopeDone tr' = 0.
Proof.
  destruct (@Dial_error_releases_scope_last sampleTransport
              (envWith None (OK (candidateMsg None)) [])
              sampleCtx sampleAddr "QmPeer"
              (Some (ma.MaBytes [ip4 "1.2.3.4"; tcp "1"; p2p "R"; ma.circuitComponent]))
              sampleScope _ _ (conj eq_refl (conj eq_refl eq_refl)) eq_refl eq_refl)
    as (tr' & H1 & H2).
  exists tr'. split; assumption.
Defined.

(** ** Listen and RemoveListener *)

Lemma Listen_ok_inv t laddr ptr l t' :
  Listen t laddr ptr = (OK l, t') ->
  listener t = None /\
  l = mkListener ptr (maxInFlightConnections t) /\
  t' = mkTransport (SetStreamHandler (host t) SignalingProtocol l)
                   (gater t) (maxInFlightConnections t) (Some l).
Proof.
  unfold Listen.
  destruct (ma.ValueForProtocol laddr ma.P_WEBRTC); [|discriminate].
  destruct (listener t); [discriminate|].
  intros H. injection H as <- <-. auto.
Qed.

(** X16: Listen and RemoveListener undo each other.  After a Listen that
    returned listener l (whose in-flight queue has the transport's
    maxInFlightConnections as capacity), RemoveListener(l) leaves no
    listener and no handler for the signaling protocol, keeps the handlers
    of every other protocol, the gater and the host as they were before the
    Listen, and a new Listen on an address with /webrtc succeeds again. *)
Theorem Listen_then_RemoveListener :
  forall (t : transport) (laddr : ma.Multiaddr) (ptr : nat) (l : Listener)
         (t' : transport),
    Listen t laddr ptr = (OK l, t') ->
    inflightCap l = maxInFlightConnections t /\
    listener (RemoveListener t' (Some l)) = None /\
    handlers (host (RemoveListener t' (Some l))) SignalingProtocol = None /\
    (forall q, q <> SignalingProtocol ->
               handlers (host (RemoveListener t' (Some l))) q = handlers (host t) q) /\
    ID (host (RemoveListener t' (Some l))) = ID (host t) /\
    gater (RemoveListener t' (Some l)) = gater t /\
    maxInFlightConnections (RemoveListener t' (Some l)) = maxInFlightConnections t /\
    (forall laddr' ptr',
        hasWebRTC (ma.components laddr') = true ->
        exists l2 t2, Listen (RemoveListener t' (Some l)) laddr' ptr' = (OK l2, t2)).
Proof.
  intros t laddr ptr l t' H.
  destruct (Listen_ok_inv _ _ _ H) as (Hnone & -> & ->).
  unfold RemoveListener. simpl. rewrite Nat.eqb_refl. simpl.
  split; [reflexivity|]. split; [reflexivity|]. split; [reflexivity|].
  split.
  { intros q Hq. apply String.eqb_neq in Hq. rewrite Hq. reflexivity. }
  split; [reflexivity|]. split; [reflexivity|]. split; [reflexivity|].
  intros laddr' ptr' Hw. unfold Listen.
  pose proof (ValueForProtocol_webrtc laddr') as Hv.
  destruct (ma.ValueForProtocol laddr' ma.P_WEBRTC); [|congruence].
  simpl. eexists. eexists. reflexivity.
Qed.

Lemma Listen_then_RemoveListener_witness :
  listener (RemoveListener
              (snd (Listen sampleTransport WebRTCAddr 1))
              (Some (mkListener 1 16)))
  = None.
Proof.
  refine (proj1 (proj2 (@Listen_then_RemoveListener sampleTransport WebRTCAddr 1
                          (mkListener 1 16) _ eq_refl))).
Defined.

(** X17: RemoveListener acts exactly when its argument is the pointer the
    transport holds ([t.listener == l]).  Where the two differ (a listener
    other than the registered one, a listener on a transport that has none,
    nil on a transport that has one) nothing changes.  Where they are the
    same, nil on a transport without listener included, the transport has
    no listener afterwards and the handler of the signaling protocol is
    removed from the host; the handlers of every other protocol, the host's
    ID, the gater and the limit are kept.  A second call with the same
    argument leaves the listener field and every handler as the first call
    left them. *)
Theorem RemoveListener_only_current :
  forall (t : transport) (l : option Listener),
    (forall l1 l2, listener t = Some l1 -> l = Some l2 ->
                   listenerID l1 <> listenerID l2 -> RemoveListener t l = t) /\
    (listener t = None -> l <> None -> RemoveListener t l = t) /\
    (listener t <> None -> l = None -> RemoveListener t l = t) /\
    ((listener t = None /\ l = None) \/
     (exists l1 l2, listener t = Some l1 /\ l = Some l2 /\
                    listenerID l1 = listenerID l2) ->
     listener (RemoveListener t l) = None /\
     handlers (host (RemoveListener t l)) SignalingProtocol = None /\
     (forall q, q <> SignalingProtocol ->
                handlers (host (RemoveListener t l)) q = handlers (host t) q) /\
     ID (host (RemoveListener t l)) = ID (host t) /\
     gater (RemoveListener t l) = gater t /\
     maxInFlightConnections (RemoveListener t l) = maxInFlightConnections t) /\
    (listener (RemoveListener (RemoveListener t l) l) = listener (RemoveListener t l) /\
     (forall q, handlers (host (RemoveListener (RemoveListener t l) l)) q
                = handlers (host (RemoveListener t l)) q) /\
     ID (host (RemoveListener (RemoveListener t l) l)) = ID (host (RemoveListener t l)) /\
     gater (RemoveListener (RemoveListener t l) l) = gater (RemoveListener t l) /\
     maxInFlightConnections (RemoveListener (RemoveListener t l) l)
     = maxInFlightConnections (RemoveListener t l)).
Proof.
  intros t l. split; [|split; [|split; [|split]]].
  - intros l1 l2 Hl -> Hne. unfold RemoveListener, samePointer. rewrite Hl.
    apply Nat.eqb_neq in Hne. rewrite Hne. reflexivity.
  - intros Hl Hne. unfold RemoveListener, samePointer. rewrite Hl.
    destruct l; [reflexivity | congruence].
  - intros Hne ->. unfold RemoveListener, samePointer.
    destruct (listener t); [reflexivity | congruence].
  - intros Hsame.
    assert (Hs : samePointer (listener t) l = true).
    { destruct Hsame as [[-> ->] | (l1 & l2 & -> & -> & Hid)]; simpl.
      - reflexivity.
      - rewrite Hid. apply Nat.eqb_refl. }
    unfold RemoveListener. rewrite Hs. simpl.
    split; [reflexivity|]. split; [reflexivity|].
    split; [|auto].
    intros q Hq. apply String.eqb_neq in Hq. rewrite Hq. reflexivity.
  - destruct (samePointer (listener t) l) eqn:Hs.
    + assert (E : RemoveListener t l
                  = mkTransport (RemoveStreamHandler (host t) SignalingProtocol)
                                (gater t) (maxInFlightConnections t) None).
      { unfold RemoveListener. rewrite Hs. reflexivity. }
      rewrite E. destruct l as [l|]; unfold RemoveListener; simpl.
      * repeat split.
      * repeat split. intros q.
        destruct (String.eqb q SignalingProtocol); reflexivity.
    + assert (E : RemoveListener t l = t).
      { unfold RemoveListener. rewrite Hs. reflexivity. }
      rewrite !E. repeat split.
Qed.

(** On a transport that never had a listener, RemoveListener(nil) takes
    the pointers for equal and removes the handler another component set
    for the signaling protocol. *)
Lemma RemoveListener_nil_removes_handler :
  listener foreignHandlerTransport = None /\
  handlers (host foreignHandlerTransport) SignalingProtocol = Some (mkListener 7 16) /\
  handlers (host (RemoveListener foreignHandlerTransport None)) SignalingProtocol = None.
Proof. repeat split. Qed.

(** ** getLocalConnectionAddress *)

(** X18: getLocalConnectionAddress succeeds exactly when the endpoint has
    its SCTP, DTLS and ICE transports, a selected candidate pair was
    returned without error, and the local candidate's IP and port make a
    network address; the result is then that address followed by the
    /webrtc component, and nothing else.  In every other case it returns an
    error. *)
Theorem getLocalConnectionAddress_ok_iff :
  forall (env : Env) (pc : PeerConnection) (a : ma.Multiaddr),
    getLocalConnectionAddress env pc = OK a <->
    exists sctp dtls ice cp l,
      SCTP pc = Some sctp /\
      Transport sctp = Some dtls /\
      getICETransport dtls = Some ice /\
      GetSelectedCandidatePair ice = (Some cp, None) /\
      envFromNetAddr env (Address (Local cp)) (Port (Local cp)) = OK l /\
      a = ma.MaBytes (ma.components l ++ [ma.webrtcComponent]).
Proof.
  intros env pc a. unfold getLocalConnectionAddress. split.
  - destruct (SCTP pc) as [sctp|] eqn:H1; [|discriminate].
    destruct (Transport sctp) as [dtls|] eqn:H2; [|discriminate].
    destruct (getICETransport dtls) as [ice|] eqn:H3; [|discriminate].
    destruct (GetSelectedCandidatePair ice) as [[cp|] [e|]] eqn:Hp; try discriminate.
    destruct (envFromNetAddr env _ _) as [l|e] eqn:Hl; [|discriminate].
    intros H. injection H as <-.
    exists sctp, dtls, ice, cp, l. repeat split; first [assumption | reflexivity].
  - intros (sctp & dtls & ice & cp & l & -> & -> & -> & -> & -> & ->). reflexivity.
Qed.

(** ** The relay address *)

Lemma dialShape_hasWebRTC cs : dialShape cs = true -> hasWebRTC cs = true.
Proof.
  intros H. apply dialShape_true in H.
  destruct H as (pre & c & mid & w & post & -> & _ & _ & _ & Hw).
  unfold hasWebRTC. rewrite existsb_app. simpl. rewrite existsb_app. simpl.
  rewrite Hw. rewrite !orb_true_r. reflexivity.
Qed.

Lemma dialShape_circuit_before pre w post :
  dialShape (pre ++ w :: post) = true ->
  ma.isWebRTC w = true -> hasWebRTC post = false ->
  existsb ma.isCircuit pre = true.
Proof.
  intros H Hw Hpost. induction pre as [|c pre IH]; simpl in *.
  - rewrite (webrtc_not_circuit _ Hw) in H.
    apply dialShape_hasWebRTC in H. congruence.
  - destruct (ma.isCircuit c); [reflexivity | auto].
Qed.

(** X19: for a dialable address with a single /webrtc component,
    getRelayAddr returns a circuit-only address: the address without the
    marker, which still has its p2p-circuit component, has no /webrtc
    component, and which this transport's own CanDial rejects. *)
Theorem getRelayAddr_gives_circuit_only :
  forall (t : transport) (a : ma.Multiaddr) (pre : list ma.Component)
         (w : ma.Component) (post : list ma.Component),
    CanDial t a = true ->
    ma.components a = pre ++ w :: post ->
    ma.isWebRTC w = true ->
    hasWebRTC pre = false ->
    hasWebRTC post = false ->
    getRelayAddr a = Ret (Some (ma.MaBytes (pre ++ post))) /\
    existsb ma.isCircuit (pre ++ post) = true /\
    hasWebRTC (pre ++ post) = false /\
    CanDial t (ma.MaBytes (pre ++ post)) = false.
Proof.
  intros t a pre w post Hdial Ha Hw Hpre Hpost.
  rewrite CanDial_dialShape, Ha in Hdial.
  pose proof (dialShape_circuit_before _ _ _ Hdial Hw Hpost) as Hc.
  assert (Hne : pre <> []) by (intros ->; discriminate Hc).
  assert (Hno : hasWebRTC (pre ++ post) = false).
  { unfold hasWebRTC in *. rewrite existsb_app, Hpre, Hpost. reflexivity. }
  split; [apply (@getRelayAddr_cuts_marker a pre w post Ha Hne Hpre Hw)|].
  split; [rewrite existsb_app, Hc; reflexivity|].
  split; [exact Hno|].
  rewrite CanDial_dialShape. simpl.
  destruct (dialShape (pre ++ post)) eqn:E; [|reflexivity].
  apply dialShape_hasWebRTC in E. congruence.
Qed.

Lemma getRelayAddr_gives_circuit_only_witness :
  CanDial sampleTransport
    (ma.MaBytes ([ip4 "1.2.3.4"; tcp "1"; p2p "R"; ma.circuitComponent] ++ [])) = false.
Proof.
  refine (proj2 (proj2 (proj2
    (@getRelayAddr_gives_circuit_only sampleTransport sampleAddr
       [ip4 "1.2.3.4"; tcp "1"; p2p "R"; ma.circuitComponent] ma.webrtcComponent []
       eq_refl eq_refl eq_refl eq_refl eq_refl)))).
Defined.

(** ** The TLS connection adapter *)

Section TLSConn.

Variables (TLSConn PrivKey PubKey ConnectionState : Type).

Lemma last_default {A} (x : A) (l : list A) (d d' : A) :
  last (x :: l) d = last (x :: l) d'.
Proof.
  revert x. induction l as [|y l IH]; intros x; [reflexivity|].
  change (last (y :: l) d = last (y :: l) d'). apply IH.
Qed.

(** X20: the connection state of the TLS adapter is the last one set:
    after any sequence of SetConnState calls ConnState returns the state of
    the last call (the initial one if there was none), and neither the
    peers' identities, nor the keys, nor the embedded TLS connection have
    changed. *)
Theorem SetConnState_last_wins :
  forall (c : libp2ptls.conn TLSConn PrivKey PubKey ConnectionState)
         (states : list ConnectionState),
    libp2ptls.ConnState (fold_left (@libp2ptls.SetConnState _ _ _ _) states c)
    = last states (libp2ptls.ConnState c) /\
    libp2ptls.LocalPeer (fold_left (@libp2ptls.SetConnState _ _ _ _) states c)
    = libp2ptls.LocalPeer c /\
    libp2ptls.LocalPrivateKey (fold_left (@libp2ptls.SetConnState _ _ _ _) states c)
    = libp2ptls.LocalPrivateKey c /\
    libp2ptls.RemotePeer (fold_left (@libp2ptls.SetConnState _ _ _ _) states c)
    = libp2ptls.RemotePeer c /\
    libp2ptls.RemotePublicKey (fold_left (@libp2ptls.SetConnState _ _ _ _) states c)
    = libp2ptls.RemotePublicKey c /\
    libp2ptls.Conn (fold_left (@libp2ptls.SetConnState _ _ _ _) states c)
    = libp2ptls.Conn c.
Proof.
  intros c states. revert c.
  induction states as [|s rest IH]; intros c; [repeat split|].
  cbn [fold_left]. destruct (IH (libp2ptls.SetConnState c s)) as (H1 & H2 & H3 & H4 & H5 & H6).
  repeat split; try assumption.
  rewrite H1. destruct rest as [|s' rest]; [reflexivity|].
  change (last (s :: s' :: rest) (libp2ptls.ConnState c))
    with (last (s' :: rest) (libp2ptls.ConnState c)).
  apply last_default.
Qed.

End TLSConn.

(** ** CanDial and what surrounds the relay hop *)

Lemma upgradeNext_suffix cs post :
  upgradeNext cs = true -> upgradeNext (cs ++ post) = true.
Proof.
  induction cs as [|c cs IH]; simpl; [discriminate|].
  destruct (ma.isCircuit c); auto.
Qed.

Lemma dialShape_suffix cs post :
  dialShape cs = true -> dialShape (cs ++ post) = true.
Proof.
  induction cs as [|c cs IH]; simpl; [discriminate|].
  destruct (ma.isCircuit c); [apply upgradeNext_suffix | exact IH].
Qed.

Lemma dialShape_prefix pre cs :
  existsb ma.isCircuit pre = false -> dialShape (pre ++ cs) = dialShape cs.
Proof.
  induction pre as [|c pre IH]; simpl; [reflexivity|].
  intros H. apply orb_false_iff in H. destruct H as [Hc Hpre].
  rewrite Hc. auto.
Qed.

(** X21: CanDial looks at nothing before the first p2p-circuit component
    and at nothing after the component that follows the relay hop:
    components without p2p-circuit put in front of an address do not change
    the answer, and components appended to a dialable address (a /p2p/peer
    suffix, say) leave it dialable. *)
Theorem CanDial_ignores_surroundings :
  forall (t : transport) (pre cs post : list ma.Component),
    (existsb ma.isCircuit pre = false ->
     CanDial t (ma.MaBytes (pre ++ cs)) = CanDial t (ma.MaBytes cs)) /\
    (CanDial t (ma.MaBytes cs) = true ->
     CanDial t (ma.MaBytes (cs ++ post)) = true).
Proof.
  intros t pre cs post. rewrite !CanDial_dialShape. simpl.
  split; [apply dialShape_prefix | apply dialShape_suffix].
Qed.
